(** * FileCrypt solver: session store and request handlers

    A shallow embedding of [src/api/index.js]: the URL pattern that yields the
    FileCrypt identifier, the process-wide [activeSessions] map, the
    get-or-create routine [getFileCryptSession] and the three POST handlers
    ([/solve-filecrypt], [/get-solved-links], [/cleanup-sessions]), followed
    by the properties of the specification that concern them. *)

From Stdlib Require Import Ascii String ZArith NArith Lia.
From stdpp Require Import base option list gmap fin_maps strings pretty.

Local Open Scope Z_scope.

(* ===================================================================== *)
(** ** The URL pattern

    [/filecrypt\.co\/(?:Container\/|Link\/)([A-Z0-9]+)/i], used through
    [String.prototype.match] (no [g] flag): the leftmost match is found and
    element [1] of the result is the capture group.

    A JavaScript string is read here as its sequence of bytes (UTF-8).  The
    pattern has no [u] flag, so case folding only relates the ASCII letters
    to each other, and no non-ASCII code unit can match any of its atoms;
    the bytes of a non-ASCII character (all above 127) do not match either. *)

Module Pattern.

Definition upcase (c : ascii) : ascii :=
  let n := N_of_ascii c in
  if ((97 <=? n) && (n <=? 122))%N then ascii_of_N (n - 32) else c.

(** Two characters are the same under the [i] flag. *)
Definition eq_ci (a b : ascii) : bool := Ascii.eqb (upcase a) (upcase b).

(** The class [[A-Z0-9]] under the [i] flag. *)
Definition in_class (c : ascii) : bool :=
  let n := N_of_ascii (upcase c) in
  (((65 <=? n) && (n <=? 90)) || ((48 <=? n) && (n <=? 57)))%N.

Definition host : list ascii := Eval cbv in list_ascii_of_string "filecrypt.co/".
Definition alt_container : list ascii := Eval cbv in list_ascii_of_string "Container/".
Definition alt_link : list ascii := Eval cbv in list_ascii_of_string "Link/".

(** Match the literal [p] at the head of [s]; the result is what follows it. *)
Fixpoint strip_ci (p s : list ascii) : option (list ascii) :=
  match p with
  | [] => Some s
  | a :: p' =>
      match s with
      | [] => None
      | c :: s' => if eq_ci a c then strip_ci p' s' else None
      end
  end.

(** The greedy run [[A-Z0-9]*] at the head of [s]. *)
Fixpoint class_run (s : list ascii) : list ascii :=
  match s with
  | [] => []
  | c :: s' => if in_class c then c :: class_run s' else []
  end.

(** The capture group [([A-Z0-9]+)]: one character at least. *)
Definition capture (s : list ascii) : option (list ascii) :=
  match class_run s with
  | [] => None
  | ident => Some ident
  end.

(** One branch of the alternation followed by the capture group. *)
Definition branch (alt s : list ascii) : option (list ascii) :=
  match strip_ci alt s with
  | Some r => capture r
  | None => None
  end.

(** The whole pattern anchored at the head of [s]; the second branch is
    tried when the first one does not lead to a match. *)
Definition match_here (s : list ascii) : option (list ascii) :=
  match strip_ci host s with
  | Some r =>
      match branch alt_container r with
      | Some ident => Some ident
      | None => branch alt_link r
      end
  | None => None
  end.

(** The leftmost position at which the pattern matches. *)
Fixpoint search (s : list ascii) : option (list ascii) :=
  match match_here s with
  | Some ident => Some ident
  | None =>
      match s with
      | [] => None
      | _ :: s' => search s'
      end
  end.

(** What the pattern denotes, stated on its own: [s] is some prefix, the
    host literal, one of the two path literals and a non-empty run of class
    characters [ident], all up to letter case, and then anything. *)
Definition same_ci (l p : list ascii) : Prop := Forall2 (λ c a, eq_ci a c = true) l p.

Definition occurs (s ident : list ascii) : Prop :=
  ∃ pre h a post,
    s = pre ++ h ++ a ++ ident ++ post ∧
    same_ci h host ∧
    (same_ci a alt_container ∨ same_ci a alt_link) ∧
    ident ≠ [] ∧ Forall (λ c, in_class c = true) ident.

(** How far the literal [p] gets on the input [a] alone, when the input
    continues after [a]: the literal is read completely ([Done], with what
    is left of [a]), [a] ends first ([Pending], with what is left of the
    literal), or a character differs. *)
Inductive progress :=
| Done (rest : list ascii)
| Pending (p' : list ascii)
| Stuck.

Fixpoint advance (p a : list ascii) : progress :=
  match p with
  | [] => Done a
  | x :: p' =>
      match a with
      | [] => Pending p
      | c :: a' => if eq_ci x c then advance p' a' else Stuck
      end
  end.

Definition is_f (c : ascii) : bool := eq_ci c "f".

End Pattern.

(** [filecryptUrl.match(...)]: [None] is the [null] result, [Some ident] a
    match whose element [1] is [ident]. *)
Definition filecryptIdMatch (filecryptUrl : string) : option string :=
  string_of_list_ascii <$> Pattern.search (list_ascii_of_string filecryptUrl).

(* ===================================================================== *)
(** ** Data *)

(** A value of a parsed JSON request body.  A field that is missing reads
    as [JsUndefined].  Numbers are kept as integers and arrays and objects
    are not told apart: the handlers only look at whether a value is a
    string, and at its truthiness. *)
Inductive JsValue :=
| JsUndefined
| JsNull
| JsBool (b : bool)
| JsNumber (n : Z)
| JsString (s : string)
| JsObject.

(** [ToBoolean]. *)
Definition truthy (v : JsValue) : bool :=
  match v with
  | JsUndefined | JsNull => false
  | JsBool b => b
  | JsNumber n => negb (n =? 0)
  | JsString s => negb (bool_decide (s = EmptyString))
  | JsObject => true
  end.

(** [s !== v] for a string [s]. *)
Definition string_strict_ne (s : string) (v : JsValue) : bool :=
  match v with
  | JsString s' => negb (bool_decide (s = s'))
  | _ => true
  end.

(** A [{url, text}] record harvested from the page. *)
Record Link := mkLink { url : string; text : string }.

Global Instance Link_eq_dec : EqDecision Link.
Proof. solve_decision. Defined.

(** Handles of the browser-automation library. *)
Abbreviation BrowserHandle := nat.
Abbreviation PageHandle := nat.

(** A JavaScript [Map] with string keys whose order of insertion can be
    observed ([session.solvedLinks], read back with [values()]). *)
Module JsMap.

Definition t (V : Type) := list (string * V).

(** [m.set(k, v)]: an existing key keeps its place, a new one goes last. *)
Fixpoint set {V} (k : string) (v : V) (m : t V) : t V :=
  match m with
  | [] => [(k, v)]
  | (k', v') :: m' =>
      if decide (k = k') then (k, v) :: m' else (k', v') :: set k v m'
  end.

Fixpoint get {V} (k : string) (m : t V) : option V :=
  match m with
  | [] => None
  | (k', v') :: m' => if decide (k = k') then Some v' else get k m'
  end.

(** [Array.from(m.values())]. *)
Definition values {V} (m : t V) : list V := m.*2.

Definition keys {V} (m : t V) : list string := m.*1.

End JsMap.

(** The session object of lines 38-44.  [browser] always holds the object
    that [puppeteer.launch] resolved to, so the tests [if (session.browser)]
    of lines 25 and 181 always pass. *)
Record Session := mkSession {
  id : string;
  filecryptId : string;
  browser : BrowserHandle;
  createdAt : Z;
  solvedLinks : JsMap.t Link;
}.

Global Instance Session_eq_dec : EqDecision Session.
Proof. solve_decision. Defined.

(** [30 * 60 * 1000] milliseconds. *)
Definition expiredThreshold : Z := 30 * 60 * 1000.

(** Calls that leave the process: the browser-automation library and the
    console. *)
Inductive Event :=
| Launch
| BrowserClose (b : BrowserHandle)
| NewPage (b : BrowserHandle)
| Goto (p : PageHandle) (target : string)
| WaitForSelector (p : PageHandle) (selector : string) (timeout : Z)
| Evaluate (p : PageHandle)
| PageClose (p : PageHandle)
| ConsoleLog (msg : string)
| ConsoleError (msg : string).

Global Instance Event_eq_dec : EqDecision Event.
Proof. solve_decision. Defined.

Definition is_browser_call (e : Event) : bool :=
  match e with
  | ConsoleLog _ | ConsoleError _ => false
  | _ => true
  end.

(** The process state: the module-level [activeSessions] map and the calls
    made so far, oldest first. *)
Record State := mkState {
  activeSessions : gmap string Session;
  trace : list Event;
}.

(** How an awaited promise settles. *)
Inductive Outcome (A : Type) :=
| Resolved (a : A)
| Rejected (msg : string).
Arguments Resolved {A} a.
Arguments Rejected {A} msg.

(** What the outside answers during one [/solve-filecrypt] request, one
    field per call site. *)
Record World := mkWorld {
  now_on_lookup : Z;                               (* Date.now(), line 21 *)
  browser_close : BrowserHandle → Outcome unit;    (* line 26 *)
  launch : Outcome BrowserHandle;                  (* line 33 *)
  uuidv4 : string;                                 (* line 39 *)
  now_on_create : Z;                               (* Date.now(), line 42 *)
  newPage : Outcome PageHandle;                    (* line 65 *)
  goto : Outcome unit;                             (* line 68 *)
  waitForCaptcha : Outcome unit;                   (* line 71 *)
  waitForLinks : Outcome unit;                     (* line 82 *)
  evaluate : Outcome (list Link);                  (* line 85 *)
  page_close : Outcome unit;                       (* line 102 *)
  page_close_in_catch : Outcome unit;              (* line 112 *)
}.

Module Req.
(** [req.body] of the two handlers that read it, as [express.json()] parsed
    it; a body without a field reads as [JsUndefined] there. *)
Record t := mk { filecryptUrl : JsValue; sessionId : JsValue }.
End Req.

Module Res.
(** The status code and the JSON body of a response; a key that the
    handler does not write is [None]. *)
Record t := mk {
  status : Z;
  success : bool;
  error : option string;
  links : option (list Link);
  sessionId : option string;
  message : option string;
  activeSessions : option nat;
}.

Global Instance eq_dec : EqDecision t.
Proof. solve_decision. Defined.

(** [res.status(code).json({ success: false, error })]. *)
Definition failure (code : Z) (err : string) : t :=
  mk code false (Some err) None None None None.
End Res.

(* ===================================================================== *)
(** ** Effects

    A handler is a state transformer that either completes with a value or
    throws; the thrown value is kept as its [message]. *)

Inductive Completion (A : Type) :=
| Normal (a : A)
| Throw (msg : string).
Arguments Normal {A} a.
Arguments Throw {A} msg.

Definition M (A : Type) : Type := State → Completion A * State.

Global Instance M_ret : MRet M := λ A a st, (Normal a, st).
Global Instance M_bind : MBind M := λ A B f m st,
  match m st with
  | (Normal a, st') => f a st'
  | (Throw msg, st') => (Throw msg, st')
  end.

Definition throw {A} (msg : string) : M A := λ st, (Throw msg, st).

(** [try { m } catch (e) { h e.message }]. *)
Definition try_catch {A} (m : M A) (h : string → M A) : M A := λ st,
  match m st with
  | (Normal a, st') => (Normal a, st')
  | (Throw msg, st') => h msg st'
  end.

Definition emit (e : Event) : M unit := λ st,
  (Normal tt, mkState (activeSessions st) (trace st ++ [e])).

Definition read_sessions : M (gmap string Session) := λ st,
  (Normal (activeSessions st), st).

Definition update_sessions (f : gmap string Session → gmap string Session) : M unit :=
  λ st, (Normal tt, mkState (f (activeSessions st)) (trace st)).

(** [await call]: the call is made, then the promise settles. *)
Definition await {A} (call : Event) (o : Outcome A) : M A :=
  emit call;;
  match o with
  | Resolved a => mret a
  | Rejected msg => throw msg
  end.

(** [promise.catch(console.error)]. *)
Definition catch_console_error (m : M unit) : M unit :=
  try_catch m (λ msg, emit (ConsoleError msg)).

(* ===================================================================== *)
(** ** The session store: [getFileCryptSession] *)

(** Lines 32-47: launch a browser, build the session, store it. *)
Definition createSession (w : World) (filecryptId : string) : M Session :=
  browser ← await Launch (launch w);
  let session := mkSession (uuidv4 w) filecryptId browser (now_on_create w) [] in
  update_sessions (insert filecryptId session);;
  mret session.

Definition getFileCryptSession (w : World) (filecryptId : string) : M Session :=
  sessions ← read_sessions;
  match sessions !! filecryptId with
  | Some session =>
      if bool_decide (now_on_lookup w - createdAt session < expiredThreshold)
      then mret session
      else
        catch_console_error
          (await (BrowserClose (browser session)) (browser_close w (browser session)));;
        update_sessions (delete filecryptId);;
        createSession w filecryptId
  | None => createSession w filecryptId
  end.

(* ===================================================================== *)
(** ** The handlers *)

(** The selectors the workflow waits for (lines 71 and 82); [dquote] is the
    double-quote character that both contain. *)
Definition dquote : ascii := "034"%char.
Definition captchaSelector : string :=
  "iframe[title*=" +:+ String dquote ("reCAPTCHA" +:+ String dquote "]").
Definition linksSelector : string :=
  "a[href*=" +:+ String dquote ("gofile.io" +:+ String dquote "]").

(** The receiver of [.match]: anything but a string has no such method and
    the call throws a [TypeError], whose message is the engine's. *)
Definition match_receiver (v : JsValue) : M string :=
  match v with
  | JsString s => mret s
  | JsUndefined => throw "Cannot read properties of undefined (reading 'match')"
  | JsNull => throw "Cannot read properties of null (reading 'match')"
  | _ => throw "filecryptUrl.match is not a function"
  end.

(** Lines 97-99: [gofileLinks.forEach(link => solvedLinks.set(link.url, link))]. *)
Definition merge_links (gofileLinks : list Link) (m : JsMap.t Link) : JsMap.t Link :=
  foldl (λ acc link, JsMap.set (url link) link acc) m gofileLinks.

Definition store_links (gofileLinks : list Link) (s : Session) : Session :=
  mkSession (id s) (filecryptId s) (browser s) (createdAt s)
            (merge_links gofileLinks (solvedLinks s)).

Definition timeout_message : string :=
  "Timed out waiting for links to appear. CAPTCHA may need to be solved manually.".

(** Lines 80-118, the inner [try]/[catch].  The session object is the one
    held by [activeSessions] under [filecryptId] (requests are run one at a
    time here), so its mutation in place is an update of that entry. *)
Definition extract (w : World) (filecryptId : string) (session : Session)
    (page : PageHandle) : M Res.t :=
  try_catch
    (await (WaitForSelector page linksSelector 120000) (waitForLinks w);;
     gofileLinks ← await (Evaluate page) (evaluate w);
     update_sessions (alter (store_links gofileLinks) filecryptId);;
     await (PageClose page) (page_close w);;
     mret (Res.mk 200 true None (Some gofileLinks) (Some (id session))
                  (Some "Successfully extracted Gofile links") None))
    (λ _,
     await (PageClose page) (page_close_in_catch w);;
     mret (Res.mk 200 false (Some timeout_message) None (Some (id session)) None None)).

(** Lines 53-118, the body of the outer [try]. *)
Definition solve_filecrypt_body (w : World) (req : Req.t) : M Res.t :=
  filecryptUrl ← match_receiver (Req.filecryptUrl req);
  match filecryptIdMatch filecryptUrl with
  | None => mret (Res.failure 400 "Invalid FileCrypt URL")
  | Some filecryptId =>
      session ← getFileCryptSession w filecryptId;
      page ← await (NewPage (browser session)) (newPage w);
      await (Goto page filecryptUrl) (goto w);;
      try_catch (await (WaitForSelector page captchaSelector 5000) (waitForCaptcha w))
                (λ _, emit (ConsoleLog "No CAPTCHA found or already solved"));;
      emit (ConsoleLog "Waiting for links to appear (manual CAPTCHA solving required)...");;
      extract w filecryptId session page
  end.

(** The outer [catch] of every handler: log, answer 500 with the message. *)
Definition respond (label : string) (m : M Res.t) (st : State) : Res.t * State :=
  match m st with
  | (Normal r, st') => (r, st')
  | (Throw msg, st') =>
      (Res.failure 500 msg,
       mkState (activeSessions st') (trace st' ++ [ConsoleError (label +:+ " " +:+ msg)]))
  end.

(** [app.post('/solve-filecrypt', ...)]. *)
Definition solve_filecrypt (w : World) (req : Req.t) : State → Res.t * State :=
  respond "Error solving FileCrypt:" (solve_filecrypt_body w req).

(** Lines 131-160. *)
Definition get_solved_links_body (req : Req.t) : M Res.t :=
  filecryptUrl ← match_receiver (Req.filecryptUrl req);
  match filecryptIdMatch filecryptUrl with
  | None => mret (Res.failure 400 "Invalid FileCrypt URL")
  | Some filecryptId =>
      sessions ← read_sessions;
      match sessions !! filecryptId with
      | None => mret (Res.failure 404 "No active session found")
      | Some session =>
          if truthy (Req.sessionId req) && string_strict_ne (id session) (Req.sessionId req)
          then mret (Res.failure 403 "Invalid session ID")
          else mret (Res.mk 200 true None (Some (JsMap.values (solvedLinks session)))
                            (Some (id session)) None None)
      end
  end.

(** [app.post('/get-solved-links', ...)]. *)
Definition get_solved_links (req : Req.t) : State → Res.t * State :=
  respond "Error getting solved links:" (get_solved_links_body req).

(** Lines 178-187: the loop over the entries of [activeSessions].  Only the
    entry being visited is ever deleted, so the loop runs over the entries
    as they were when it started; they are visited in the order of
    [map_to_list], which differs from the order of insertion only in the
    order of the [BrowserClose] calls. *)
Fixpoint cleanup_loop (now : Z) (close : BrowserHandle → Outcome unit)
    (entries : list (string * Session)) (cleanedCount : nat) : M nat :=
  match entries with
  | [] => mret cleanedCount
  | (filecryptId, session) :: rest =>
      if bool_decide (now - createdAt session > expiredThreshold)
      then
        catch_console_error
          (await (BrowserClose (browser session)) (close (browser session)));;
        update_sessions (delete filecryptId);;
        cleanup_loop now close rest (S cleanedCount)
      else cleanup_loop now close rest cleanedCount
  end.

Definition cleanup_message (cleanedCount : nat) : string :=
  "Cleaned up " +:+ pretty cleanedCount +:+ " expired sessions".

(** [app.post('/cleanup-sessions', ...)]; [now] is the [Date.now()] of line
    173 and [close] says how each [browser.close()] settles. *)
Definition cleanup_sessions (now : Z) (close : BrowserHandle → Outcome unit)
    : State → Res.t * State :=
  respond "Error cleaning up sessions:"
    (sessions ← read_sessions;
     cleanedCount ← cleanup_loop now close (map_to_list sessions) 0;
     remaining ← read_sessions;
     mret (Res.mk 200 true None None None (Some (cleanup_message cleanedCount))
                  (Some (size remaining)))).

(* ===================================================================== *)
(** ** Notions used to state the properties *)

(** What [browser.close().catch(console.error)] adds to the log after the
    call itself. *)
Definition close_log (o : Outcome unit) : list Event :=
  match o with
  | Resolved _ => []
  | Rejected msg => [ConsoleError msg]
  end.

(** The session built by lines 38-44 around the browser [b]. *)
Definition fresh_session (w : World) (filecryptId : string) (b : BrowserHandle) : Session :=
  mkSession (uuidv4 w) filecryptId b (now_on_create w) [].

(** Older than the threshold at [now], as the sweep tests it (line 179). *)
Definition expired (now : Z) (s : Session) : Prop := now - createdAt s > expiredThreshold.

Global Instance expired_dec now s : Decision (expired now s).
Proof. unfold expired. apply _. Defined.

Definition stale (now : Z) (entry : string * Session) : Prop := expired now entry.2.
Definition fresh (now : Z) (entry : string * Session) : Prop := ¬ expired now entry.2.

Global Instance stale_dec now e : Decision (stale now e).
Proof. unfold stale. apply _. Defined.
Global Instance fresh_dec now e : Decision (fresh now e).
Proof. unfold fresh. apply _. Defined.

(** The body of the answer of [/cleanup-sessions]. *)
Definition cleanup_response (cleanedCount remaining : nat) : Res.t :=
  Res.mk 200 true None None None (Some (cleanup_message cleanedCount)) (Some remaining).

(** The answers of the handlers that carry a session. *)
Definition links_response (session : Session) : Res.t :=
  Res.mk 200 true None (Some (JsMap.values (solvedLinks session))) (Some (id session))
         None None.

Definition timeout_response (session : Session) : Res.t :=
  Res.mk 200 false (Some timeout_message) None (Some (id session)) None None.

Definition success_response (gofileLinks : list Link) (session : Session) : Res.t :=
  Res.mk 200 true None (Some gofileLinks) (Some (id session))
         (Some "Successfully extracted Gofile links") None.

(** What the probe for the CAPTCHA frame adds to the log after the call. *)
Definition captcha_log (o : Outcome unit) : list Event :=
  match o with
  | Resolved _ => []
  | Rejected _ => [ConsoleLog "No CAPTCHA found or already solved"]
  end.

(** The calls of a run up to the wait for the links, once the session is
    at hand. *)
Definition prelude (w : World) (target : string) (session : Session) (page : PageHandle)
    : list Event :=
  [NewPage (browser session); Goto page target; WaitForSelector page captchaSelector 5000]
  ++ captcha_log (waitForCaptcha w)
  ++ [ConsoleLog "Waiting for links to appear (manual CAPTCHA solving required)...";
      WaitForSelector page linksSelector 120000].

(** A URL string matches when the pattern occurs somewhere in it. *)
Definition url_matches (filecryptUrl : string) : Prop :=
  ∃ ident, Pattern.occurs (list_ascii_of_string filecryptUrl) ident.

(** An identifier made of letters and digits only, and not empty. *)
Definition alphanumeric (X : string) : Prop :=
  X ≠ EmptyString ∧ Forall (λ c, Pattern.in_class c = true) (list_ascii_of_string X).

Definition containerUrl (pre X post : string) : string :=
  pre +:+ "filecrypt.co/Container/" +:+ X +:+ post.
Definition linkUrl (pre X post : string) : string :=
  pre +:+ "filecrypt.co/Link/" +:+ X +:+ post.

(* ===================================================================== *)
(** ** Sample data *)

Definition link_a : Link := mkLink "https://gofile.io/d/a" "A".
Definition link_b : Link := mkLink "https://gofile.io/d/b" "B".
Definition link_a' : Link := mkLink "https://gofile.io/d/a" "A, again".

(** A session created at time 0 that holds two links. *)
Definition old_session : Session :=
  mkSession "uuid-1" "ABC123" 7 0 [(url link_a, link_a); (url link_b, link_b)].

Definition one_session : State := mkState {[ "ABC123" := old_session ]} [].
Definition no_session : State := mkState ∅ [].

(** A world in which every call succeeds and the page shows [link_a']. *)
Definition calm (now : Z) : World :=
  mkWorld now (λ _, Resolved tt) (Resolved 8%nat) "uuid-2" now
          (Resolved 1%nat) (Resolved tt) (Resolved tt) (Resolved tt)
          (Resolved [link_a']) (Resolved tt) (Resolved tt).

(** The same, but the links never show up. *)
Definition stuck (now : Z) : World :=
  mkWorld now (λ _, Resolved tt) (Resolved 8%nat) "uuid-2" now
          (Resolved 1%nat) (Resolved tt) (Rejected "no frame") (Rejected "waiting failed")
          (Resolved []) (Resolved tt) (Resolved tt).

Definition container_ABC123 : string := "https://filecrypt.co/Container/ABC123".

(** A session created fifty minutes after [old_session], and a store that
    holds both. *)
Definition young_session : Session :=
  mkSession "uuid-3" "XYZ789" 9 3000000 [(url link_b, link_b)].

Definition two_sessions : State :=
  mkState (<[ "XYZ789" := young_session ]> {[ "ABC123" := old_session ]}) [].

(* ===================================================================== *)
(** ** Notions used by the further properties *)

(** Equal up to the case of letters. *)
Definition ci_equal (s p : string) : Prop :=
  Pattern.same_ci (list_ascii_of_string s) (list_ascii_of_string p).

(** Not starting with a letter or a digit. *)
Definition no_leading_alnum (s : string) : Prop :=
  Pattern.class_run (list_ascii_of_string s) = [].

(** Without the letter [f], in either case. *)
Definition no_f (s : string) : Prop :=
  forallb (λ c, negb (Pattern.is_f c)) (list_ascii_of_string s) = true.

(** The link map of a session is well formed when no key occurs twice and
    every record is stored under its own [url]. *)
Definition links_wf (m : JsMap.t Link) : Prop :=
  NoDup (JsMap.keys m) ∧ Forall (λ e, url e.2 = e.1) m.

(** The store is well formed when every session is stored under its own
    [filecryptId] and has a well-formed link map. *)
Definition store_wf (st : State) : Prop :=
  ∀ k s, activeSessions st !! k = Some s → filecryptId s = k ∧ links_wf (solvedLinks s).

(** The store holds a session for [k] that line 21 accepts at [now]. *)
Definition is_live (now : Z) (st : State) (k : string) : bool :=
  match activeSessions st !! k with
  | Some s => bool_decide (now - createdAt s < expiredThreshold)
  | None => false
  end.

(** The calls the clean-up loop makes for the entries it visits: one close
    per entry older than the threshold, followed by what the console gets
    when the close fails. *)
Definition close_calls (now : Z) (close : BrowserHandle → Outcome unit)
    (entries : list (string * Session)) : list Event :=
  flat_map (λ e, BrowserClose (browser e.2) :: close_log (close (browser e.2)))
           (filter (stale now) entries).

(* ===================================================================== *)
(** * Properties *)

(** ** The URL pattern *)

Example filecryptIdMatch_container :
  filecryptIdMatch "https://filecrypt.co/Container/ABC123" = Some "ABC123".
Proof. reflexivity. Qed.

Example filecryptIdMatch_link_lower :
  filecryptIdMatch "http://www.FILECRYPT.CO/link/abc123.html" = Some "abc123".
Proof. reflexivity. Qed.

Example filecryptIdMatch_none :
  filecryptIdMatch "https://filecrypt.cc/Container/ABC123" = None.
Proof. reflexivity. Qed.

Module PatternFacts.
Import Pattern.

Lemma search_cons c s :
  search (c :: s) = match match_here (c :: s) with Some i => Some i | None => search s end.
Proof. reflexivity. Qed.

Lemma strip_ci_Some p s r :
  strip_ci p s = Some r → ∃ l, s = l ++ r ∧ same_ci l p.
Proof.
  revert s. induction p as [|a p IH]; intros s H; simpl in H.
  - exists []. split; [by simplify_eq | constructor].
  - destruct s as [|c s]; [done|].
    destruct (eq_ci a c) eqn:E; [|done].
    destruct (IH _ H) as (l & -> & Hl).
    exists (c :: l). split; [done|]. by constructor.
Qed.

Lemma strip_ci_same l p r : same_ci l p → strip_ci p (l ++ r) = Some r.
Proof. induction 1 as [|c a l p E _ IH]; simpl; [done|]. by rewrite E. Qed.

Lemma class_run_spec s :
  ∃ post, s = class_run s ++ post ∧ Forall (λ c, in_class c = true) (class_run s).
Proof.
  induction s as [|c s (post & Hs & Hall)]; simpl.
  - by exists [].
  - destruct (in_class c) eqn:E.
    + exists post. split; [simpl; congruence | by constructor].
    + by exists (c :: s).
Qed.

Lemma class_run_app l s :
  class_run (l ++ s)
  = if forallb in_class l then l ++ class_run s else class_run l.
Proof.
  induction l as [|c l IH]; simpl; [done|].
  destruct (in_class c); simpl; [|done]. rewrite IH. by destruct (forallb in_class l).
Qed.

Lemma capture_Some s ident :
  capture s = Some ident →
  ∃ post, s = ident ++ post ∧ ident ≠ [] ∧ Forall (λ c, in_class c = true) ident.
Proof.
  unfold capture. destruct (class_run_spec s) as (post & Hs & Hall).
  destruct (class_run s) as [|c r] eqn:E; [done|].
  intros [= <-]. by exists post.
Qed.

Lemma capture_app_is_Some ident post :
  ident ≠ [] → Forall (λ c, in_class c = true) ident → is_Some (capture (ident ++ post)).
Proof.
  intros Hne Hall. unfold capture. rewrite class_run_app.
  assert (forallb in_class ident = true) as ->.
  { apply forallb_forall. intros c Hc. rewrite Forall_forall in Hall. apply Hall.
    by apply list_elem_of_In. }
  destruct ident; [done|]. simpl. eauto.
Qed.

Lemma branch_Some alt s ident :
  branch alt s = Some ident →
  ∃ a post, s = a ++ ident ++ post ∧ same_ci a alt ∧ ident ≠ [] ∧
            Forall (λ c, in_class c = true) ident.
Proof.
  unfold branch. destruct (strip_ci alt s) as [r|] eqn:E; [|done].
  intros (post & -> & ? & ?)%capture_Some.
  apply strip_ci_Some in E as (a & -> & ?). by exists a, post.
Qed.

Lemma match_here_Some s ident : match_here s = Some ident → occurs s ident.
Proof.
  unfold match_here. destruct (strip_ci host s) as [r|] eqn:E; [|done].
  apply strip_ci_Some in E as (h & -> & Hh).
  destruct (branch alt_container r) as [i|] eqn:E1.
  - intros [= ->]. apply branch_Some in E1 as (a & post & -> & ? & ? & ?).
    exists [], h, a, post. naive_solver.
  - intros (a & post & -> & ? & ? & ?)%branch_Some.
    exists [], h, a, post. naive_solver.
Qed.

Lemma occurs_cons c s ident : occurs s ident → occurs (c :: s) ident.
Proof.
  intros (pre & h & a & post & -> & ?). by exists (c :: pre), h, a, post.
Qed.

(** Whatever [search] returns is an occurrence of the pattern. *)
Lemma search_Some s ident : search s = Some ident → occurs s ident.
Proof.
  induction s as [|c s IH].
  - intros H. by cbn in H.
  - rewrite search_cons. destruct (match_here (c :: s)) eqn:E.
    + intros [= ->]. by apply match_here_Some.
    + intros. by apply occurs_cons, IH.
Qed.

Lemma match_here_occurs_nil h a ident post :
  same_ci h host → same_ci a alt_container ∨ same_ci a alt_link →
  ident ≠ [] → Forall (λ c, in_class c = true) ident →
  is_Some (match_here (h ++ a ++ ident ++ post)).
Proof.
  intros Hh Ha Hne Hall. unfold match_here. rewrite (strip_ci_same _ _ _ Hh).
  destruct (branch alt_container (a ++ ident ++ post)) eqn:E; [eauto|].
  destruct Ha as [Ha|Ha].
  - unfold branch in E. rewrite (strip_ci_same _ _ _ Ha) in E.
    destruct (capture_app_is_Some ident post Hne Hall) as [? ?]. congruence.
  - unfold branch. rewrite (strip_ci_same _ _ _ Ha). by apply capture_app_is_Some.
Qed.

Lemma search_here s ident : match_here s = Some ident → search s = Some ident.
Proof.
  destruct s as [|c s]; intros H; [by cbn in H|]. by rewrite search_cons, H.
Qed.

(** Where the pattern occurs, [search] finds a match. *)
Lemma search_complete s ident : occurs s ident → is_Some (search s).
Proof.
  intros (pre & h & a & post & -> & Hh & Ha & Hne & Hall).
  induction pre as [|c pre IH].
  - pose proof (match_here_occurs_nil h a ident post Hh Ha Hne Hall) as [i Hi].
    rewrite app_nil_l, (search_here _ _ Hi). eauto.
  - simpl app. rewrite search_cons. destruct (match_here _); eauto.
Qed.

Lemma search_None s : search s = None ↔ ¬ ∃ ident, occurs s ident.
Proof.
  split.
  - intros H [ident Hoc]. apply search_complete in Hoc as [? ?]. congruence.
  - intros H. destruct (search s) as [i|] eqn:E; [|done].
    destruct H. exists i. by apply search_Some.
Qed.

(** *** Reading a literal across a split of the input *)

Lemma strip_ci_app p a b :
  strip_ci p (a ++ b)
  = match advance p a with
    | Done r => Some (r ++ b)
    | Pending p' => strip_ci p' b
    | Stuck => None
    end.
Proof.
  revert a. induction p as [|x p IH]; intros a; simpl; [done|].
  destruct a as [|c a]; simpl; [done|].
  destruct (eq_ci x c); [apply IH | done].
Qed.

Lemma advance_Pending p a p' :
  advance p a = Pending p' →
  ∃ x q, p' = x :: q ∧ (a = [] ∧ p' = p ∨ x ∈ tail p).
Proof.
  revert a. induction p as [|y p IH]; intros a; simpl; [done|].
  destruct a as [|c a].
  - intros [= <-]. exists y, p. auto.
  - destruct (eq_ci y c); [|done]. intros (x & q & -> & Hx)%IH.
    exists x, q. split; [done|]. right. simpl.
    destruct Hx as [[_ <-]|Hx]; [left|].
    destruct p; [by apply elem_of_nil in Hx | by right].
Qed.

Lemma strip_ci_head_mismatch x q c s : eq_ci x c = false → strip_ci (x :: q) (c :: s) = None.
Proof. intros H. simpl. by rewrite H. Qed.

Lemma match_here_not_f c s : is_f c = false → match_here (c :: s) = None.
Proof.
  intros H. unfold match_here, host. rewrite strip_ci_head_mismatch; [done|].
  unfold is_f, eq_ci in *. by rewrite Ascii.eqb_sym.
Qed.

Lemma search_skip l s : forallb (λ c, negb (is_f c)) l = true → search (l ++ s) = search s.
Proof.
  induction l as [|c l IH]; simpl app; [done|].
  intros [Hc Hl]%andb_prop. rewrite search_cons, match_here_not_f.
  - by apply IH.
  - by destruct (is_f c).
Qed.

Section path_style.
(** Two inputs that start with an [f] and carry the same class run. *)
Variables t1 t2 : list ascii.
Variable f0 : ascii.
Hypothesis f0_is_f : is_f f0 = true.
Hypothesis same_run : class_run (f0 :: t1) = class_run (f0 :: t2).

Lemma strip_ci_no_f x q t : is_f x = false → strip_ci (x :: q) (f0 :: t) = None.
Proof.
  intros Hx. apply strip_ci_head_mismatch.
  pose proof f0_is_f as Hf. unfold is_f, eq_ci in Hf, Hx |- *.
  apply Ascii.eqb_eq in Hf. by rewrite Hf.
Qed.

Lemma branch_path_style alt r :
  forallb (λ c, negb (is_f c)) alt = true →
  branch alt (r ++ f0 :: t1) = branch alt (r ++ f0 :: t2).
Proof.
  intros Halt. unfold branch. rewrite !strip_ci_app.
  destruct (advance alt r) as [r'|p'|] eqn:E; [|  |done].
  - unfold capture. rewrite !class_run_app, same_run. done.
  - apply advance_Pending in E as (x & q & -> & Hx).
    assert (x ∈ alt) as Hin.
    { destruct Hx as [[_ <-]|Hx]; [left|]. destruct alt; [done | by right]. }
    rewrite forallb_forall in Halt. apply list_elem_of_In, Halt in Hin.
    rewrite !strip_ci_no_f; [done|by destruct (is_f x)..].
Qed.

Lemma match_here_path_style pre :
  pre ≠ [] → match_here (pre ++ f0 :: t1) = match_here (pre ++ f0 :: t2).
Proof.
  intros Hpre. unfold match_here. rewrite !strip_ci_app.
  destruct (advance host pre) as [r|p'|] eqn:E; [|  |done].
  - by rewrite !(branch_path_style _ r).
  - apply advance_Pending in E as (x & q & -> & [[? _]|Hx]); [done|].
    assert (is_f x = false) as Hx'.
    { assert (forallb (λ c, negb (is_f c)) (tail host) = true) as Hall by done.
      rewrite forallb_forall in Hall. apply list_elem_of_In, Hall in Hx.
      by destruct (is_f x). }
    by rewrite !strip_ci_no_f.
Qed.

Lemma search_path_style pre :
  search (f0 :: t1) = search (f0 :: t2) →
  search (pre ++ f0 :: t1) = search (pre ++ f0 :: t2).
Proof.
  intros Hbase. induction pre as [|c pre IH]; [done|].
  pose proof (match_here_path_style (c :: pre)) as Hc.
  simpl app in *. rewrite !search_cons, IH, Hc; done.
Qed.
End path_style.

Lemma match_here_container rest :
  match_here (host ++ alt_container ++ rest) = capture rest.
Proof.
  unfold match_here. rewrite (strip_ci_same host host) by repeat constructor.
  unfold branch at 1. rewrite (strip_ci_same alt_container) by repeat constructor.
  by destruct (capture rest).
Qed.

Lemma match_here_link rest :
  match_here (host ++ alt_link ++ rest) = capture rest.
Proof.
  unfold match_here. rewrite (strip_ci_same host host) by repeat constructor.
  change (branch alt_container (alt_link ++ rest)) with (@None (list ascii)).
  unfold branch. by rewrite (strip_ci_same alt_link) by repeat constructor.
Qed.

Lemma search_container rest :
  search (host ++ alt_container ++ rest)
  = match capture rest with Some i => Some i | None => search rest end.
Proof.
  pose proof (match_here_container rest) as H. unfold host in *. simpl app in *.
  rewrite search_cons, H. destruct (capture rest); [done|].
  by apply (search_skip (tail host ++ alt_container)).
Qed.

Lemma search_link rest :
  search (host ++ alt_link ++ rest)
  = match capture rest with Some i => Some i | None => search rest end.
Proof.
  pose proof (match_here_link rest) as H. unfold host in *. simpl app in *.
  rewrite search_cons, H. destruct (capture rest); [done|].
  by apply (search_skip (tail host ++ alt_link)).
Qed.

(** The two path styles yield the same identifier, whatever surrounds them. *)
Lemma search_container_link pre rest :
  search (pre ++ host ++ alt_container ++ rest) = search (pre ++ host ++ alt_link ++ rest).
Proof.
  pose proof (search_container rest) as H1. pose proof (search_link rest) as H2.
  unfold host in *. simpl app in *.
  apply search_path_style; [done|done|congruence].
Qed.

End PatternFacts.

(** ** The session store *)

Ltac run_M :=
  cbv [mbind M_bind mret M_ret await emit throw try_catch
       catch_console_error read_sessions update_sessions] in *; simpl in *.

Lemma createSession_eq w k st :
  createSession w k st
  = match launch w with
    | Resolved b =>
        (Normal (fresh_session w k b),
         mkState (<[k := fresh_session w k b]> (activeSessions st)) (trace st ++ [Launch]))
    | Rejected msg => (Throw msg, mkState (activeSessions st) (trace st ++ [Launch]))
    end.
Proof. unfold createSession. run_M. by destruct (launch w). Qed.

Lemma getFileCryptSession_eq w k st :
  getFileCryptSession w k st
  = match activeSessions st !! k with
    | Some session =>
        if bool_decide (now_on_lookup w - createdAt session < expiredThreshold)
        then (Normal session, st)
        else createSession w k
               (mkState (delete k (activeSessions st))
                  (trace st ++ BrowserClose (browser session)
                     :: close_log (browser_close w (browser session))))
    | None => createSession w k st
    end.
Proof.
  unfold getFileCryptSession. run_M.
  destruct (activeSessions st !! k) as [s|]; [|done].
  case_bool_decide; [by destruct st|].
  destruct (browser_close w (browser s)); simpl; [done|].
  by rewrite <- app_assoc.
Qed.

Lemma getFileCryptSession_live w k st s :
  activeSessions st !! k = Some s →
  now_on_lookup w - createdAt s < expiredThreshold →
  getFileCryptSession w k st = (Normal s, st).
Proof. intros Hs Hlive. rewrite getFileCryptSession_eq, Hs. by rewrite bool_decide_true. Qed.

(** The session that is returned is the one the store holds under the key. *)
Lemma getFileCryptSession_stored w k st s st' :
  getFileCryptSession w k st = (Normal s, st') → activeSessions st' !! k = Some s.
Proof.
  rewrite getFileCryptSession_eq.
  destruct (activeSessions st !! k) as [old|] eqn:E.
  - case_bool_decide.
    + by intros [= <- <-].
    + rewrite createSession_eq. destruct (launch w); [|done].
      intros [= <- <-]. simpl. by rewrite lookup_insert_eq.
  - rewrite createSession_eq. destruct (launch w); [|done].
    intros [= <- <-]. simpl. by rewrite lookup_insert_eq.
Qed.

(** C2.  [getFileCryptSession] returns either the stored session, and then
    its age at the lookup is below the 30-minute threshold, or a session it
    has just created (of age zero, with no links).  When the stored session
    has reached the threshold, and in particular when its age exceeds it,
    the call closes the old browser exactly once, whether or not the close
    succeeds, removes the entry and launches a browser; if the launch
    succeeds the fresh session is stored under the key and returned, and if
    it fails the call throws with the entry removed. *)
Theorem getFileCryptSession_never_stale (w : World) (k : string) (st : State) :
  (∀ s st', getFileCryptSession w k st = (Normal s, st') →
     activeSessions st' !! k = Some s ∧
     ((activeSessions st !! k = Some s ∧
       now_on_lookup w - createdAt s < expiredThreshold ∧ st' = st)
      ∨ (∃ b, launch w = Resolved b ∧ s = fresh_session w k b ∧
              now_on_create w - createdAt s = 0 ∧ solvedLinks s = []))) ∧
  (∀ old, activeSessions st !! k = Some old →
     expiredThreshold ≤ now_on_lookup w - createdAt old →
     ∃ res st' new,
       getFileCryptSession w k st = (res, st') ∧
       trace st' = trace st ++ new ∧
       count_occ Event_eq_dec new (BrowserClose (browser old)) = 1%nat ∧
       count_occ Event_eq_dec new Launch = 1%nat ∧
       match launch w with
       | Resolved b =>
           res = Normal (fresh_session w k b) ∧
           activeSessions st' = <[k := fresh_session w k b]> (activeSessions st)
       | Rejected msg =>
           res = Throw msg ∧ activeSessions st' = delete k (activeSessions st)
       end).
Proof.
  split.
  - intros s st' Hrun. split; [by eapply getFileCryptSession_stored|].
    rewrite getFileCryptSession_eq in Hrun.
    destruct (activeSessions st !! k) as [old|] eqn:E.
    + case_bool_decide as Hlive.
      * left. by simplify_eq.
      * rewrite createSession_eq in Hrun. destruct (launch w) as [b|]; [|done].
        right. exists b. simplify_eq. simpl. split_and!; (done || lia).
    + rewrite createSession_eq in Hrun. destruct (launch w) as [b|]; [|done].
      right. exists b. simplify_eq. simpl. split_and!; (done || lia).
  - intros old Hold Hage.
    rewrite getFileCryptSession_eq, Hold, bool_decide_false by lia.
    rewrite createSession_eq. simpl.
    set (new := BrowserClose (browser old)
                  :: close_log (browser_close w (browser old)) ++ [Launch]).
    assert (count_occ Event_eq_dec new (BrowserClose (browser old)) = 1%nat
            ∧ count_occ Event_eq_dec new Launch = 1%nat) as [Hc Hl].
    { unfold new. rewrite count_occ_cons_eq, count_occ_cons_neq, !count_occ_app by done.
      destruct (browser_close w (browser old)); unfold close_log;
        rewrite ?count_occ_cons_eq, ?count_occ_cons_neq, ?count_occ_nil by done; done. }
    destruct (launch w) as [b|msg]; eexists _, _, new; simpl;
      rewrite <- ?app_assoc; split_and!; try done.
    by rewrite insert_delete_eq.
Qed.

(** ** The sweep *)

Lemma list_ascii_of_string_app (a b : string) :
  list_ascii_of_string (a +:+ b) = list_ascii_of_string a ++ list_ascii_of_string b.
Proof. induction a as [|c a IH]; simpl; [done|]. by rewrite <- IH. Qed.

Lemma string_app_inv_tail (a b s : string) : a +:+ s = b +:+ s → a = b.
Proof.
  intros H. apply (f_equal list_ascii_of_string) in H.
  rewrite !list_ascii_of_string_app in H. apply app_inv_tail in H.
  by rewrite <- (string_of_list_ascii_of_string a), H, string_of_list_ascii_of_string.
Qed.

(** The text of line 191 tells the count: two counts give the same text
    only when they are equal. *)
Lemma cleanup_message_inj (m n : nat) :
  "Cleaned up " +:+ pretty m +:+ " expired sessions"
  = "Cleaned up " +:+ pretty n +:+ " expired sessions" → m = n.
Proof.
  intros H. apply (inj (String.app "Cleaned up ")) in H.
  apply string_app_inv_tail in H. by apply (inj pretty) in H.
Qed.

Lemma close_step close b st :
  catch_console_error (await (BrowserClose b) (close b)) st
  = (Normal tt,
     mkState (activeSessions st) (trace st ++ BrowserClose b :: close_log (close b))).
Proof. run_M. destruct (close b) as [[]|msg]; simpl; [done|]. by rewrite <- app_assoc. Qed.

Lemma cleanup_loop_cons now close k s rest cleanedCount st :
  cleanup_loop now close ((k, s) :: rest) cleanedCount st
  = if decide (expired now s)
    then cleanup_loop now close rest (S cleanedCount)
           (mkState (delete k (activeSessions st))
              (trace st ++ BrowserClose (browser s) :: close_log (close (browser s))))
    else cleanup_loop now close rest cleanedCount st.
Proof.
  simpl cleanup_loop. unfold expired. case_bool_decide; [rewrite decide_True by done|by rewrite decide_False].
  unfold mbind at 1 2, M_bind. by rewrite close_step.
Qed.

(** The calls of the loop never throw, and only close browsers and log. *)
Lemma cleanup_loop_eq now close entries cleanedCount st :
  ∃ new,
    cleanup_loop now close entries cleanedCount st
    = (Normal (cleanedCount + length (filter (stale now) entries))%nat,
       mkState (foldr delete (activeSessions st) (filter (stale now) entries).*1)
               (trace st ++ new)) ∧
    (filter (stale now) entries = [] → new = []).
Proof.
  revert cleanedCount st. induction entries as [|[k s] rest IH]; intros c st.
  - exists []. simpl. rewrite Nat.add_0_r, app_nil_r. split; [by destruct st|done].
  - rewrite cleanup_loop_cons. destruct (decide (expired now s)) as [Hs|Hs].
    + rewrite filter_cons_True by done.
      edestruct IH as (new & -> & _).
      exists (BrowserClose (browser s) :: close_log (close (browser s)) ++ new).
      split; [|done]. simpl. rewrite <- delete_foldr_delete, <- app_assoc.
      do 3 f_equal. lia.
    + rewrite filter_cons_False by done. apply IH.
Qed.

Lemma swept_store now (m : gmap string Session) :
  foldr delete m (filter (stale now) (map_to_list m)).*1 = filter (fresh now) m.
Proof.
  apply map_eq. intros k. apply option_eq. intros s.
  rewrite lookup_foldr_delete_Some, map_lookup_filter_Some.
  unfold fresh, stale. simpl. split.
  - intros [Hk Hs]. split; [done|]. intros Hexp. apply Hk.
    apply list_elem_of_fmap. exists (k, s). split; [done|].
    apply list_elem_of_filter. split; [done|]. by apply elem_of_map_to_list.
  - intros [Hs Hfresh]. split; [|done].
    intros ([k' s'] & -> & [Hexp Hin]%list_elem_of_filter)%list_elem_of_fmap.
    apply elem_of_map_to_list in Hin. simpl in *. by simplify_eq.
Qed.

Lemma size_filter_entries (P : string * Session → Prop) `{!∀ e, Decision (P e)}
    (m : gmap string Session) :
  size (filter P m) = length (filter P (map_to_list m)).
Proof.
  rewrite <- length_map_to_list, map_filter_alt.
  apply Permutation_length, map_to_list_to_map.
  eapply NoDup_fmap_fst.
  - intros k x y [_ Hx%elem_of_map_to_list]%list_elem_of_filter
      [_ Hy%elem_of_map_to_list]%list_elem_of_filter. congruence.
  - apply NoDup_filter, NoDup_map_to_list.
Qed.

Lemma size_stale_fresh now (m : gmap string Session) :
  (size (filter (stale now) m) + size (filter (fresh now) m))%nat = size m.
Proof.
  rewrite !size_filter_entries, <- length_map_to_list, <- length_app.
  apply Permutation_length, filter_app_complement.
Qed.

Lemma fresh_idem now (m : gmap string Session) :
  filter (stale now) (filter (fresh now) m) = ∅.
Proof.
  apply map_empty. intros k. apply map_lookup_filter_None. right.
  intros s [_ Hf]%map_lookup_filter_Some Hs. by apply Hf.
Qed.

Lemma cleanup_sessions_eq now close st :
  ∃ new,
    cleanup_sessions now close st
    = (cleanup_response (size (filter (stale now) (activeSessions st)))
                        (size (filter (fresh now) (activeSessions st))),
       mkState (filter (fresh now) (activeSessions st)) (trace st ++ new)) ∧
    (filter (stale now) (activeSessions st) = ∅ → new = []).
Proof.
  unfold cleanup_sessions, respond.
  unfold mbind at 1, M_bind. unfold read_sessions at 1.
  unfold mbind at 1, M_bind.
  destruct (cleanup_loop_eq now close (map_to_list (activeSessions st)) 0 st)
    as (new & -> & Hnew).
  exists new. rewrite swept_store, <- size_filter_entries. simpl. split; [done|].
  intros Hnone. apply Hnew.
  apply length_zero_iff_nil. by rewrite <- size_filter_entries, Hnone.
Qed.

(** C3.  The sweep keeps exactly the sessions that are not older than the
    threshold at [now], each with its record (and so its links) untouched,
    and removes all the others.  It answers 200 with the text
    [Cleaned up N expired sessions], where [N], in decimal, is the number of
    sessions removed (the number of sessions older than the threshold, and
    the difference of the two store sizes), and with the number of sessions
    left; no other count gives that text.  A second sweep at the same
    instant removes none, answers [Cleaned up 0 expired sessions], and
    makes no call. *)
Theorem cleanup_sessions_sweeps (now : Z) (close close2 : BrowserHandle → Outcome unit)
    (st : State) :
  ∃ st' cleanedCount,
    cleanup_sessions now close st
    = (Res.mk 200 true None None None
         (Some ("Cleaned up " +:+ pretty cleanedCount +:+ " expired sessions"))
         (Some (size (activeSessions st'))), st') ∧
    (∀ n, Res.message (cleanup_sessions now close st).1
          = Some ("Cleaned up " +:+ pretty n +:+ " expired sessions") →
          n = cleanedCount) ∧
    (∀ k, activeSessions st' !! k
          = match activeSessions st !! k with
            | Some s => if decide (expired now s) then None else Some s
            | None => None
            end) ∧
    cleanedCount = size (filter (stale now) (activeSessions st)) ∧
    cleanedCount = (size (activeSessions st) - size (activeSessions st'))%nat ∧
    cleanup_sessions now close2 st'
    = (Res.mk 200 true None None None (Some "Cleaned up 0 expired sessions")
         (Some (size (activeSessions st'))), st').
Proof.
  destruct (cleanup_sessions_eq now close st) as (new & Hrun & _).
  exists (mkState (filter (fresh now) (activeSessions st)) (trace st ++ new)),
    (size (filter (stale now) (activeSessions st))).
  split; [exact Hrun|]. split.
  { intros n Hn. rewrite Hrun in Hn. cbn [fst cleanup_response Res.message] in Hn.
    apply (inj Some) in Hn. symmetry. by apply cleanup_message_inj. }
  simpl. split_and!.
  - intros k. rewrite map_lookup_filter.
    destruct (activeSessions st !! k) as [s|]; simpl; [|done].
    unfold fresh. simpl. destruct (decide (expired now s)).
    + by rewrite option_guard_False by tauto.
    + by rewrite option_guard_True.
  - done.
  - pose proof (size_stale_fresh now (activeSessions st)). lia.
  - destruct (cleanup_sessions_eq now close2
                (mkState (filter (fresh now) (activeSessions st)) (trace st ++ new)))
      as (new2 & -> & Hnew2).
    simpl in *. rewrite fresh_idem in *. rewrite Hnew2, app_nil_r by done.
    rewrite map_size_empty.
    assert (filter (fresh now) (filter (fresh now) (activeSessions st))
            = filter (fresh now) (activeSessions st)) as ->; [|done].
    apply map_filter_id. by intros k s [_ Hf]%map_lookup_filter_Some.
Qed.

(** On a store with one session of one hour and one of ten minutes: the
    text says 1, one session is left, the old one is gone whether or not its
    browser closes, and a second sweep says 0. *)
Lemma cleanup_sessions_sweeps_witness :
  ∃ st',
    cleanup_sessions 3600000 (λ _, Rejected "gone") two_sessions
    = (Res.mk 200 true None None None (Some "Cleaned up 1 expired sessions")
         (Some 1%nat), st') ∧
    activeSessions st' !! "ABC123" = None ∧
    activeSessions st' !! "XYZ789" = Some young_session ∧
    cleanup_sessions 3600000 (λ _, Resolved tt) st'
    = (Res.mk 200 true None None None (Some "Cleaned up 0 expired sessions")
         (Some 1%nat), st').
Proof.
  destruct (cleanup_sessions_sweeps 3600000 (λ _, Rejected "gone") (λ _, Resolved tt)
              two_sessions) as (st' & n & Hrun & _ & Hlook & Hn & _ & Hagain).
  assert (n = 1%nat) as -> by (rewrite Hn; by vm_compute).
  assert (st' = (cleanup_sessions 3600000 (λ _, Rejected "gone") two_sessions).2) as Hst.
  { by rewrite Hrun. }
  assert (size (activeSessions st') = 1%nat) as Hsize.
  { rewrite Hst. by vm_compute. }
  rewrite Hsize in Hrun, Hagain.
  exists st'. split_and!; [exact Hrun| | |exact Hagain].
  - rewrite Hlook. by vm_compute.
  - rewrite Hlook. by vm_compute.
Defined.

(** The same run, evaluated. *)
Example cleanup_sessions_text :
  (cleanup_sessions 3600000 (λ _, Resolved tt) two_sessions).1
  = Res.mk 200 true None None None (Some "Cleaned up 1 expired sessions") (Some 1%nat).
Proof. by vm_compute. Qed.

(** ** The solved-links accessor *)

Lemma get_solved_links_eq url sid st :
  get_solved_links (Req.mk (JsString url) sid) st
  = (match filecryptIdMatch url with
     | None => Res.failure 400 "Invalid FileCrypt URL"
     | Some k =>
         match activeSessions st !! k with
         | None => Res.failure 404 "No active session found"
         | Some session =>
             if truthy sid && string_strict_ne (id session) sid
             then Res.failure 403 "Invalid session ID"
             else links_response session
         end
     end, st).
Proof.
  unfold get_solved_links, respond, get_solved_links_body. run_M.
  destruct (filecryptIdMatch url) as [k|]; [|done].
  destruct (activeSessions st !! k) as [s|]; [|done].
  by destruct (truthy sid && string_strict_ne (id s) sid).
Qed.

Lemma receiver_not_string v :
  (∀ s, v ≠ JsString s) → ∃ msg, ∀ st, match_receiver v st = (Throw msg, st).
Proof. destruct v; intros H; try (eexists; intros; reflexivity). by destruct (H s). Qed.

Lemma JsValue_string_or_not v : (∃ s, v = JsString s) ∨ (∀ s, v ≠ JsString s).
Proof. destruct v; eauto. Qed.

Lemma get_solved_links_not_string v sid st :
  (∀ s, v ≠ JsString s) →
  ∃ msg, get_solved_links (Req.mk v sid) st
         = (Res.failure 500 msg,
            mkState (activeSessions st)
              (trace st ++ [ConsoleError ("Error getting solved links:" +:+ " " +:+ msg)])).
Proof.
  intros [msg Hmsg]%receiver_not_string. exists msg.
  unfold get_solved_links, respond, get_solved_links_body. run_M. by rewrite Hmsg.
Qed.

Lemma solve_filecrypt_not_string w v sid st :
  (∀ s, v ≠ JsString s) →
  ∃ msg, solve_filecrypt w (Req.mk v sid) st
         = (Res.failure 500 msg,
            mkState (activeSessions st)
              (trace st ++ [ConsoleError ("Error solving FileCrypt:" +:+ " " +:+ msg)])).
Proof.
  intros [msg Hmsg]%receiver_not_string. exists msg.
  unfold solve_filecrypt, respond, solve_filecrypt_body. run_M. by rewrite Hmsg.
Qed.

Lemma solve_filecrypt_no_match w url sid st :
  filecryptIdMatch url = None →
  solve_filecrypt w (Req.mk (JsString url) sid) st
  = (Res.failure 400 "Invalid FileCrypt URL", st).
Proof.
  intros H. unfold solve_filecrypt, respond, solve_filecrypt_body. run_M. by rewrite H.
Qed.

(** ** The extraction workflow *)

Lemma solve_filecrypt_timeout_eq w url sid st k session st1 page msg :
  filecryptIdMatch url = Some k →
  getFileCryptSession w k st = (Normal session, st1) →
  newPage w = Resolved page →
  goto w = Resolved tt →
  waitForLinks w = Rejected msg →
  page_close_in_catch w = Resolved tt →
  solve_filecrypt w (Req.mk (JsString url) sid) st
  = (timeout_response session,
     mkState (activeSessions st1)
       (trace st1 ++ prelude w url session page ++ [PageClose page])).
Proof.
  intros Hk Hs Hp Hg Hl Hc.
  unfold solve_filecrypt, respond, solve_filecrypt_body, extract. run_M.
  rewrite Hk, Hs, Hp, Hg. simpl.
  destruct (waitForCaptcha w); simpl; rewrite Hl, Hc; simpl;
    unfold timeout_response, prelude; simpl; rewrite <- ?app_assoc; simpl; done.
Qed.

Lemma getFileCryptSession_throw w k st msg st1 :
  getFileCryptSession w k st = (Throw msg, st1) →
  launch w = Rejected msg ∧ activeSessions st1 = delete k (activeSessions st).
Proof.
  rewrite getFileCryptSession_eq.
  destruct (activeSessions st !! k) as [old|] eqn:E.
  - case_bool_decide; [done|]. rewrite createSession_eq.
    destruct (launch w); [done|]. by intros [= <- <-].
  - rewrite createSession_eq. destruct (launch w); [done|].
    intros [= <- <-]. simpl. by rewrite delete_id.
Qed.

(** Every way a run can end once the session is at hand. *)
Lemma solve_filecrypt_cases w url sid st k session st1 :
  filecryptIdMatch url = Some k →
  getFileCryptSession w k st = (Normal session, st1) →
  ∃ res st' new,
    solve_filecrypt w (Req.mk (JsString url) sid) st = (res, st') ∧
    trace st' = trace st1 ++ new ∧ Forall (λ e, e ≠ Launch) new ∧
    ((∃ gofileLinks,
        res = success_response gofileLinks session ∧
        evaluate w = Resolved gofileLinks ∧
        activeSessions st'
        = alter (store_links gofileLinks) k (activeSessions st1)) ∨
     ((res = timeout_response session ∨ ∃ msg, res = Res.failure 500 msg) ∧
      (activeSessions st' = activeSessions st1 ∨
       ∃ gofileLinks,
         evaluate w = Resolved gofileLinks ∧
         activeSessions st'
         = alter (store_links gofileLinks) k (activeSessions st1)))).
Proof.
  intros Hk Hs.
  unfold solve_filecrypt, respond, solve_filecrypt_body, extract. run_M.
  rewrite Hk, Hs.
  destruct (newPage w) as [page|?]; simpl;
    [destruct (goto w) as [[]|?]; simpl;
     [destruct (waitForCaptcha w) as [[]|?]; simpl;
      (destruct (waitForLinks w) as [[]|?]; simpl;
       [destruct (evaluate w) as [L|?]; simpl;
        [destruct (page_close w) as [[]|?]; simpl|]|];
       try (destruct (page_close_in_catch w) as [[]|?]; simpl))|]|];
    eexists _, _, _; (split; [reflexivity|]); simpl;
    (split; [rewrite <- ?app_assoc; simpl; reflexivity|]);
    (split; [repeat constructor; done|]);
    first [ left; eexists; split_and!; reflexivity
          | right; split; [first [left; reflexivity | right; eexists; reflexivity]|];
            first [left; reflexivity | right; eexists; split; reflexivity] ].
Qed.

Lemma get_solved_links_store req st st' :
  activeSessions st = activeSessions st' →
  (get_solved_links req st).1 = (get_solved_links req st').1.
Proof.
  intros Heq. destruct req as [v sid].
  destruct v; try (unfold get_solved_links, respond, get_solved_links_body; run_M; done).
  rewrite !get_solved_links_eq. simpl. by rewrite Heq.
Qed.

Lemma JsMap_get_set {V} (u k : string) (v : V) (m : JsMap.t V) :
  JsMap.get u (JsMap.set k v m) = if decide (u = k) then Some v else JsMap.get u m.
Proof.
  induction m as [|[k' v'] m IH]; simpl.
  - done.
  - destruct (decide (k = k')) as [->|Hne]; simpl.
    + by destruct (decide (u = k')).
    + rewrite IH. destruct (decide (u = k')) as [->|]; [|done].
      by rewrite decide_False by done.
Qed.

(** Per [url], the record that stays is the last one written. *)
Lemma merge_links_get gofileLinks (m : JsMap.t Link) (u : string) :
  JsMap.get u (merge_links gofileLinks m)
  = match last (filter (λ link, url link = u) gofileLinks) with
    | Some link => Some link
    | None => JsMap.get u m
    end.
Proof.
  unfold merge_links. revert m.
  induction gofileLinks as [|l L IH]; intros m; simpl; [done|].
  rewrite IH, JsMap_get_set, filter_cons.
  destruct (decide (url l = u)) as [<-|Hne].
  - rewrite decide_True by done. rewrite last_cons.
    by destruct (last (filter _ L)).
  - by rewrite decide_False by done.
Qed.

(** ** The two path styles *)

Lemma path_style_same_id pre X post :
  filecryptIdMatch (containerUrl pre X post) = filecryptIdMatch (linkUrl pre X post).
Proof.
  unfold filecryptIdMatch, containerUrl, linkUrl. f_equal.
  rewrite !list_ascii_of_string_app.
  apply (PatternFacts.search_container_link
           (list_ascii_of_string pre)
           (list_ascii_of_string X ++ list_ascii_of_string post)).
Qed.

Lemma containerUrl_valid pre X post :
  alphanumeric X → is_Some (filecryptIdMatch (containerUrl pre X post)).
Proof.
  intros [Hne Hall]. unfold filecryptIdMatch, containerUrl.
  rewrite !list_ascii_of_string_app.
  destruct (PatternFacts.search_complete
              (list_ascii_of_string pre ++ Pattern.host ++ Pattern.alt_container
                 ++ list_ascii_of_string X ++ list_ascii_of_string post)
              (list_ascii_of_string X)) as [i Hi].
  - exists (list_ascii_of_string pre), Pattern.host, Pattern.alt_container,
      (list_ascii_of_string post).
    split_and!; [done|by repeat constructor|left; by repeat constructor| |done].
    destruct X; [done|]. done.
  - change (list_ascii_of_string "filecrypt.co/Container/")
      with (Pattern.host ++ Pattern.alt_container).
    rewrite <- app_assoc, Hi. eauto.
Qed.

Lemma linkUrl_valid pre X post :
  alphanumeric X → is_Some (filecryptIdMatch (linkUrl pre X post)).
Proof. rewrite <- path_style_same_id. apply containerUrl_valid. Qed.

(** What a run leaves behind once the session is at hand: the store holds
    under the key a session with the same id, creation time and browser,
    no browser was launched after the session was obtained, and the
    response carries no other session id. *)
Lemma solve_filecrypt_after w url sid st k session st1 :
  filecryptIdMatch url = Some k →
  getFileCryptSession w k st = (Normal session, st1) →
  ∃ res st' new s',
    solve_filecrypt w (Req.mk (JsString url) sid) st = (res, st') ∧
    trace st' = trace st1 ++ new ∧ Forall (λ e, e ≠ Launch) new ∧
    activeSessions st' !! k = Some s' ∧
    id s' = id session ∧ createdAt s' = createdAt session ∧
    browser s' = browser session ∧
    (∀ j, Res.sessionId res = Some j → j = id session).
Proof.
  intros Hk Hs. pose proof (getFileCryptSession_stored _ _ _ _ _ Hs) as Hst.
  destruct (solve_filecrypt_cases w url sid st k session st1 Hk Hs)
    as (res & st' & new & Hrun & Htr & Hnew & Hcases).
  assert (∀ L, alter (store_links L) k (activeSessions st1) !! k
               = Some (store_links L session)) as Halter.
  { intros L. by rewrite lookup_alter_eq, Hst. }
  assert (∀ j, Res.sessionId res = Some j → j = id session) as Hid.
  { destruct Hcases as [(L & -> & _)|[[->|[msg ->]] _]]; simpl; congruence. }
  destruct Hcases as [(L & _ & _ & Hstore)|[_ [Hstore|(L & _ & Hstore)]]].
  - exists res, st', new, (store_links L session). by rewrite Hstore, Halter.
  - exists res, st', new, session. by rewrite Hstore.
  - exists res, st', new, (store_links L session). by rewrite Hstore, Halter.
Qed.

Lemma solve_filecrypt_session w url sid st res st' i :
  solve_filecrypt w (Req.mk (JsString url) sid) st = (res, st') →
  Res.sessionId res = Some i →
  ∃ k session st1,
    filecryptIdMatch url = Some k ∧
    getFileCryptSession w k st = (Normal session, st1) ∧ id session = i.
Proof.
  intros Hrun Hi. destruct (filecryptIdMatch url) as [k|] eqn:Hk.
  - destruct (getFileCryptSession w k st) as [[session|msg] st1] eqn:Hs.
    + exists k, session, st1. split_and!; [done..|].
      destruct (solve_filecrypt_after w url sid st k session st1 Hk Hs)
        as (res0 & st0 & _ & _ & Hrun0 & _ & _ & _ & _ & _ & _ & Hid).
      rewrite Hrun in Hrun0. simplify_eq. symmetry. by apply Hid.
    + unfold solve_filecrypt, respond, solve_filecrypt_body in Hrun. run_M.
      rewrite Hk, Hs in Hrun. by simplify_eq.
  - rewrite solve_filecrypt_no_match in Hrun by done. by simplify_eq.
Qed.

Lemma same_id_share_session (u1 u2 : string) (w1 w2 : World) (sid1 sid2 : JsValue)
    (st st1 st2 : State) (res1 res2 : Res.t) (i : string) :
  filecryptIdMatch u1 = filecryptIdMatch u2 →
  solve_filecrypt w1 (Req.mk (JsString u1) sid1) st = (res1, st1) →
  Res.sessionId res1 = Some i →
  solve_filecrypt w2 (Req.mk (JsString u2) sid2) st1 = (res2, st2) →
  ∃ k s1,
    filecryptIdMatch u1 = Some k ∧ filecryptIdMatch u2 = Some k ∧
    activeSessions st1 !! k = Some s1 ∧ id s1 = i ∧
    (now_on_lookup w2 - createdAt s1 < expiredThreshold →
     getFileCryptSession w2 k st1 = (Normal s1, st1) ∧
     (∃ new, trace st2 = trace st1 ++ new ∧ Forall (λ e, e ≠ Launch) new) ∧
     (∃ s2, activeSessions st2 !! k = Some s2 ∧ id s2 = i ∧
            createdAt s2 = createdAt s1 ∧ browser s2 = browser s1) ∧
     (∀ j, Res.sessionId res2 = Some j → j = i)).
Proof.
  intros Hsame Hrun1 Hi Hrun2.
  destruct (solve_filecrypt_session _ _ _ _ _ _ _ Hrun1 Hi)
    as (k & session & st0 & Hk & Hs & <-).
  destruct (solve_filecrypt_after w1 u1 sid1 st k session st0 Hk Hs)
    as (res & st' & _ & s1 & Hrun & _ & _ & Hs1 & Hid1 & _ & _ & _).
  rewrite Hrun1 in Hrun. simplify_eq.
  exists k, s1. split_and!; [done|congruence|done|done|].
  intros Hlive.
  pose proof (getFileCryptSession_live w2 k _ s1 Hs1 Hlive) as Hs2.
  split; [done|].
  destruct (solve_filecrypt_after w2 u2 sid2 _ k s1 _ ltac:(congruence) Hs2)
    as (res' & st'' & new & s2 & Hrun & Htr & Hnew & Hst2 & ? & ? & ? & Hid2).
  rewrite Hrun2 in Hrun. simplify_eq.
  split_and!; [by exists new| |].
  - exists s2. split_and!; congruence.
  - intros j Hj. rewrite (Hid2 j Hj). done.
Qed.

(** C4.  The two URLs that differ only in the path style carry the same
    identifier, which exists when [X] is alphanumeric.  Take the two URLs
    in either order: if the first request got as far as a session, that
    session is stored under the identifier, and when the second request is
    made while that session is younger than the threshold it is served by
    the same session: [getFileCryptSession] hands it back without touching
    the store, no browser is launched, the store still holds a session with
    the same id, creation time and browser under the identifier, and the
    only session id the second response can carry is that of the first. *)
Theorem path_styles_share_session (pre X post : string) :
  filecryptIdMatch (containerUrl pre X post) = filecryptIdMatch (linkUrl pre X post) ∧
  (alphanumeric X → is_Some (filecryptIdMatch (containerUrl pre X post))) ∧
  ∀ (u1 u2 : string) (w1 w2 : World) (sid1 sid2 : JsValue) (st st1 st2 : State)
    (res1 res2 : Res.t) (i : string),
    (u1 = containerUrl pre X post ∧ u2 = linkUrl pre X post) ∨
    (u1 = linkUrl pre X post ∧ u2 = containerUrl pre X post) →
    solve_filecrypt w1 (Req.mk (JsString u1) sid1) st = (res1, st1) →
    Res.sessionId res1 = Some i →
    solve_filecrypt w2 (Req.mk (JsString u2) sid2) st1 = (res2, st2) →
    ∃ k s1,
      filecryptIdMatch u1 = Some k ∧ filecryptIdMatch u2 = Some k ∧
      activeSessions st1 !! k = Some s1 ∧ id s1 = i ∧
      (now_on_lookup w2 - createdAt s1 < expiredThreshold →
       getFileCryptSession w2 k st1 = (Normal s1, st1) ∧
       (∃ new, trace st2 = trace st1 ++ new ∧ Forall (λ e, e ≠ Launch) new) ∧
       (∃ s2, activeSessions st2 !! k = Some s2 ∧ id s2 = i ∧
              createdAt s2 = createdAt s1 ∧ browser s2 = browser s1) ∧
       (∀ j, Res.sessionId res2 = Some j → j = i)).
Proof.
  split; [apply path_style_same_id|]. split; [apply containerUrl_valid|].
  intros u1 u2 w1 w2 sid1 sid2 st st1 st2 res1 res2 i Hu.
  apply same_id_share_session.
  destruct Hu as [[-> ->]|[-> ->]]; [|symmetry]; apply path_style_same_id.
Qed.

(** C5.  A run whose wait for the result links times out, and whose page
    then closes, answers with the timeout failure and the session id (status
    200); closing the page is the last call it makes; the store is exactly
    what [getFileCryptSession] left, so the links of the session are what
    they were, and [/get-solved-links] answers afterwards what it would have
    answered then.  When the run reused a live session the store is the one
    from before the request: nothing gathered earlier is lost. *)
Theorem solve_filecrypt_timeout_keeps_links (w : World) (url : string) (sid : JsValue)
    (st st1 : State) (k : string) (session : Session) (page : PageHandle) (msg : string) :
  filecryptIdMatch url = Some k →
  getFileCryptSession w k st = (Normal session, st1) →
  newPage w = Resolved page →
  goto w = Resolved tt →
  waitForLinks w = Rejected msg →
  page_close_in_catch w = Resolved tt →
  ∃ st',
    solve_filecrypt w (Req.mk (JsString url) sid) st = (timeout_response session, st') ∧
    trace st' = trace st1 ++ prelude w url session page ++ [PageClose page] ∧
    activeSessions st' = activeSessions st1 ∧
    activeSessions st' !! k = Some session ∧
    (∀ req, (get_solved_links req st').1 = (get_solved_links req st1).1) ∧
    (∀ old, activeSessions st !! k = Some old →
            now_on_lookup w - createdAt old < expiredThreshold →
            session = old ∧ activeSessions st' = activeSessions st ∧
            ∀ req, (get_solved_links req st').1 = (get_solved_links req st).1).
Proof.
  intros Hk Hs Hp Hg Hl Hc. eexists. split.
  { by eapply solve_filecrypt_timeout_eq. }
  simpl. split_and!; [done|done|by eapply getFileCryptSession_stored| |].
  - intros req. by apply get_solved_links_store.
  - intros old Hold Hlive.
    rewrite (getFileCryptSession_live w k st old Hold Hlive) in Hs. simplify_eq.
    split_and!; [done..|]. intros req. by apply get_solved_links_store.
Qed.

(** C8.  A run that answers with success has harvested a list of records;
    the response carries exactly that list and the id of the session; in
    the store the session's links are the old ones with each harvested
    record written under its [url], in order, so that for every [url] the
    stored record is the last harvested one with that [url] if there is one
    and the previously stored record otherwise; no other session changes. *)
Theorem solve_filecrypt_success_merges (w : World) (req : Req.t) (st st' : State)
    (res : Res.t) :
  solve_filecrypt w req st = (res, st') →
  Res.success res = true →
  ∃ filecryptUrl k session st1 gofileLinks,
    Req.filecryptUrl req = JsString filecryptUrl ∧
    filecryptIdMatch filecryptUrl = Some k ∧
    getFileCryptSession w k st = (Normal session, st1) ∧
    evaluate w = Resolved gofileLinks ∧
    res = success_response gofileLinks session ∧
    Res.links res = Some gofileLinks ∧ Res.sessionId res = Some (id session) ∧
    activeSessions st' = <[k := store_links gofileLinks session]> (activeSessions st1) ∧
    solvedLinks (store_links gofileLinks session)
    = foldl (λ m link, JsMap.set (url link) link m) (solvedLinks session) gofileLinks ∧
    (∀ u, JsMap.get u (solvedLinks (store_links gofileLinks session))
          = match last (filter (λ link, url link = u) gofileLinks) with
            | Some link => Some link
            | None => JsMap.get u (solvedLinks session)
            end).
Proof.
  intros Hrun Hok. destruct req as [v sid].
  destruct (JsValue_string_or_not v) as [[target ->]|Hv].
  - destruct (filecryptIdMatch target) as [k|] eqn:Hk.
    + destruct (getFileCryptSession w k st) as [[session|msg] st1] eqn:Hs.
      * destruct (solve_filecrypt_cases w target sid st k session st1 Hk Hs)
          as (res0 & st0 & new & Hrun0 & _ & _ & Hcases).
        rewrite Hrun in Hrun0. simplify_eq.
        destruct Hcases as [(L & -> & HL & Hstore)|[[->|[msg ->]] _]]; [|done..].
        exists target, k, session, st1, L. split_and!; try done.
        -- rewrite Hstore. apply map_eq. intros j.
           pose proof (getFileCryptSession_stored _ _ _ _ _ Hs) as Hst.
           destruct (decide (j = k)) as [->|Hne].
           ++ by rewrite lookup_alter_eq, lookup_insert_eq, Hst.
           ++ by rewrite lookup_alter_ne, lookup_insert_ne.
        -- intros u. apply merge_links_get.
      * unfold solve_filecrypt, respond, solve_filecrypt_body in Hrun. run_M.
        rewrite Hk, Hs in Hrun. by simplify_eq.
    + rewrite solve_filecrypt_no_match in Hrun by done. by simplify_eq.
  - destruct (solve_filecrypt_not_string w v sid st Hv) as [msg Hmsg].
    rewrite Hrun in Hmsg. by simplify_eq.
Qed.

Lemma filecryptIdMatch_None filecryptUrl :
  filecryptIdMatch filecryptUrl = None ↔ ¬ url_matches filecryptUrl.
Proof.
  unfold filecryptIdMatch, url_matches. rewrite <- PatternFacts.search_None.
  by destruct (Pattern.search _).
Qed.

(** C6.  For a URL string in which the pattern does not occur, both
    handlers answer 400 with the invalid-input error, and the state is the
    one from before: no session is created, removed or changed and no call
    to the browser (or to the console) is made. *)
Theorem invalid_url_rejected (w : World) (filecryptUrl : string) (sid : JsValue)
    (st : State) :
  ¬ url_matches filecryptUrl →
  solve_filecrypt w (Req.mk (JsString filecryptUrl) sid) st
  = (Res.failure 400 "Invalid FileCrypt URL", st) ∧
  get_solved_links (Req.mk (JsString filecryptUrl) sid) st
  = (Res.failure 400 "Invalid FileCrypt URL", st).
Proof.
  intros Hno%filecryptIdMatch_None. split.
  - by apply solve_filecrypt_no_match.
  - by rewrite get_solved_links_eq, Hno.
Qed.

(** C9.  When [filecryptUrl] is not a string (missing, or of another type),
    both handlers answer 500 with the message of the error thrown by the
    call of [match], not 400; the sessions are untouched and no browser call
    is made. *)
Theorem non_string_url_is_500 (w : World) (v sid : JsValue) (st : State) :
  (∀ s, v ≠ JsString s) →
  ∃ msg st1 st2,
    solve_filecrypt w (Req.mk v sid) st = (Res.failure 500 msg, st1) ∧
    get_solved_links (Req.mk v sid) st = (Res.failure 500 msg, st2) ∧
    Res.status (Res.failure 500 msg) = 500 ∧
    Res.failure 500 msg ≠ Res.failure 400 "Invalid FileCrypt URL" ∧
    activeSessions st1 = activeSessions st ∧ activeSessions st2 = activeSessions st ∧
    filter is_browser_call (trace st1) = filter is_browser_call (trace st) ∧
    filter is_browser_call (trace st2) = filter is_browser_call (trace st).
Proof.
  intros Hv.
  destruct (receiver_not_string v Hv) as [msg Hmsg].
  exists msg. eexists _, _. split_and!.
  - unfold solve_filecrypt, respond, solve_filecrypt_body. run_M. by rewrite Hmsg.
  - unfold get_solved_links, respond, get_solved_links_body. run_M. by rewrite Hmsg.
  - done.
  - done.
  - done.
  - done.
  - simpl. by rewrite filter_app, filter_cons_False, filter_nil, app_nil_r by (simpl; tauto).
  - simpl. by rewrite filter_app, filter_cons_False, filter_nil, app_nil_r by (simpl; tauto).
Qed.

(** C10.  With the empty string as [sessionId] the comparison with the
    stored id is skipped: the request for a stored session succeeds and
    returns its links and its id, whatever that id is. *)
Theorem empty_session_id_skips_check (filecryptUrl k : string) (session : Session)
    (st : State) :
  filecryptIdMatch filecryptUrl = Some k →
  activeSessions st !! k = Some session →
  get_solved_links (Req.mk (JsString filecryptUrl) (JsString EmptyString)) st
  = (links_response session, st) ∧
  Res.status (links_response session) = 200 ∧
  Res.links (links_response session) = Some (JsMap.values (solvedLinks session)).
Proof. intros Hk Hs. by rewrite get_solved_links_eq, Hk, Hs. Qed.

(** C7, as the code has it.  For a stored session, a truthy [sessionId]
    (a non-empty string, or any other truthy value) that is not the stored
    id is answered with 403 and no links; a [sessionId] equal to the stored
    id is answered with all the links of the session, in the order of the
    map, and the id. *)
Theorem session_id_check (filecryptUrl k : string) (session : Session) (sid : JsValue)
    (st : State) :
  filecryptIdMatch filecryptUrl = Some k →
  activeSessions st !! k = Some session →
  (truthy sid = true → sid ≠ JsString (id session) →
   get_solved_links (Req.mk (JsString filecryptUrl) sid) st
   = (Res.failure 403 "Invalid session ID", st) ∧
   Res.links (Res.failure 403 "Invalid session ID") = None) ∧
  (sid = JsString (id session) →
   get_solved_links (Req.mk (JsString filecryptUrl) sid) st
   = (links_response session, st) ∧
   Res.links (links_response session) = Some (JsMap.values (solvedLinks session)) ∧
   Res.sessionId (links_response session) = Some (id session)).
Proof.
  intros Hk Hs. rewrite get_solved_links_eq, Hk, Hs. split.
  - intros Ht Hne. rewrite Ht. simpl.
    assert (string_strict_ne (id session) sid = true) as ->; [|done].
    destruct sid; simpl; try done. rewrite bool_decide_false; [done|congruence].
  - intros ->. simpl. rewrite (bool_decide_true (id session = id session)) by done.
    simpl. by rewrite andb_false_r.
Qed.

(** ** The accessor and expired sessions *)

(** C1, at a failing input.  One hour after the session was created, which
    [getFileCryptSession] and the sweep both treat as expired, the
    accessor still answers 200 with the links of the session instead of 404:
    it only asks whether the store has the key. *)
Theorem get_solved_links_serves_expired :
  expired 3600000 old_session ∧
  (getFileCryptSession (calm 3600000) "ABC123" one_session).1
    = Normal (fresh_session (calm 3600000) "ABC123" 8) ∧
  get_solved_links (Req.mk (JsString container_ABC123) JsUndefined) one_session
  = (links_response old_session, one_session) ∧
  Res.status (links_response old_session) = 200 ∧
  Res.links (links_response old_session) = Some [link_a; link_b].
Proof. split_and!; [by vm_compute|reflexivity..]. Qed.

(** What holds of the accessor whatever the age of the session: it answers
    404 exactly when the store has no entry under the identifier. *)
Lemma get_solved_links_404 (filecryptUrl k : string) (sid : JsValue) (st : State) :
  filecryptIdMatch filecryptUrl = Some k →
  (get_solved_links (Req.mk (JsString filecryptUrl) sid) st).1
    = Res.failure 404 "No active session found"
  ↔ activeSessions st !! k = None.
Proof.
  intros Hk. rewrite get_solved_links_eq, Hk. simpl.
  destruct (activeSessions st !! k) as [s|]; [|done].
  split; [|done]. by destruct (truthy sid && string_strict_ne (id s) sid).
Qed.

(** ** Instances *)

Lemma getFileCryptSession_never_stale_witness :
  (activeSessions
     (getFileCryptSession (calm 1000) "ABC123" one_session).2 !! "ABC123"
   = Some old_session) ∧
  ∃ res st' new,
    getFileCryptSession (calm 3600000) "ABC123" one_session = (res, st') ∧
    trace st' = trace one_session ++ new ∧
    count_occ Event_eq_dec new (BrowserClose (browser old_session)) = 1%nat ∧
    count_occ Event_eq_dec new Launch = 1%nat ∧
    res = Normal (fresh_session (calm 3600000) "ABC123" 8) ∧
    activeSessions st'
    = <[ "ABC123" := fresh_session (calm 3600000) "ABC123" 8 ]> (activeSessions one_session).
Proof.
  split.
  - apply (proj1 (getFileCryptSession_never_stale (calm 1000) "ABC123" one_session)
             old_session one_session).
    reflexivity.
  - apply (proj2 (getFileCryptSession_never_stale (calm 3600000) "ABC123" one_session)
             old_session); [reflexivity | by vm_compute].
Defined.

Lemma path_styles_share_session_witness :
  let first := solve_filecrypt (stuck 1000)
                 (Req.mk (JsString (containerUrl "https://" "ABC123" "")) JsUndefined)
                 no_session in
  let second := solve_filecrypt (calm 2000)
                  (Req.mk (JsString (linkUrl "https://" "ABC123" "")) JsUndefined)
                  first.2 in
  is_Some (filecryptIdMatch (containerUrl "https://" "ABC123" "")) ∧
  ∃ k s1,
    filecryptIdMatch (containerUrl "https://" "ABC123" "") = Some k ∧
    filecryptIdMatch (linkUrl "https://" "ABC123" "") = Some k ∧
    activeSessions first.2 !! k = Some s1 ∧ id s1 = "uuid-2" ∧
    (now_on_lookup (calm 2000) - createdAt s1 < expiredThreshold →
     getFileCryptSession (calm 2000) k first.2 = (Normal s1, first.2) ∧
     (∃ new, trace second.2 = trace first.2 ++ new ∧ Forall (λ e, e ≠ Launch) new) ∧
     (∃ s2, activeSessions second.2 !! k = Some s2 ∧ id s2 = "uuid-2" ∧
            createdAt s2 = createdAt s1 ∧ browser s2 = browser s1) ∧
     (∀ j, Res.sessionId second.1 = Some j → j = "uuid-2")).
Proof.
  intros first second.
  destruct (path_styles_share_session "https://" "ABC123" "") as (_ & Hvalid & Hshare).
  split.
  - apply Hvalid. split; [done | by repeat constructor].
  - apply (Hshare _ _ (stuck 1000) (calm 2000) JsUndefined JsUndefined no_session
             first.2 second.2 first.1 second.1 "uuid-2").
    + left. done.
    + reflexivity.
    + reflexivity.
    + reflexivity.
Defined.

Lemma solve_filecrypt_timeout_keeps_links_witness :
  ∃ st',
    solve_filecrypt (stuck 1000) (Req.mk (JsString container_ABC123) JsUndefined)
      one_session
    = (timeout_response old_session, st') ∧
    trace st' = trace one_session ++ prelude (stuck 1000) container_ABC123 old_session 1
                  ++ [PageClose 1] ∧
    activeSessions st' = activeSessions one_session ∧
    activeSessions st' !! "ABC123" = Some old_session ∧
    (∀ req, (get_solved_links req st').1 = (get_solved_links req one_session).1) ∧
    (∀ old, activeSessions one_session !! "ABC123" = Some old →
            now_on_lookup (stuck 1000) - createdAt old < expiredThreshold →
            old_session = old ∧ activeSessions st' = activeSessions one_session ∧
            ∀ req, (get_solved_links req st').1 = (get_solved_links req one_session).1).
Proof.
  apply (solve_filecrypt_timeout_keeps_links (stuck 1000) container_ABC123 JsUndefined
           one_session one_session "ABC123" old_session 1 "waiting failed");
    reflexivity.
Defined.

Lemma invalid_url_rejected_witness :
  solve_filecrypt (calm 1000) (Req.mk (JsString "https://example.com/Container/ABC123")
                                 JsUndefined) one_session
  = (Res.failure 400 "Invalid FileCrypt URL", one_session) ∧
  get_solved_links (Req.mk (JsString "https://example.com/Container/ABC123") JsUndefined)
    one_session
  = (Res.failure 400 "Invalid FileCrypt URL", one_session).
Proof.
  apply (invalid_url_rejected (calm 1000) "https://example.com/Container/ABC123"
           JsUndefined one_session).
  apply filecryptIdMatch_None. reflexivity.
Defined.

Lemma solve_filecrypt_success_merges_witness :
  ∃ filecryptUrl k session st1 gofileLinks,
    Req.filecryptUrl (Req.mk (JsString container_ABC123) JsUndefined)
    = JsString filecryptUrl ∧
    filecryptIdMatch filecryptUrl = Some k ∧
    getFileCryptSession (calm 1000) k one_session = (Normal session, st1) ∧
    evaluate (calm 1000) = Resolved gofileLinks ∧
    (solve_filecrypt (calm 1000) (Req.mk (JsString container_ABC123) JsUndefined)
       one_session).1 = success_response gofileLinks session ∧
    Res.links (solve_filecrypt (calm 1000)
                 (Req.mk (JsString container_ABC123) JsUndefined) one_session).1
    = Some gofileLinks ∧
    Res.sessionId (solve_filecrypt (calm 1000)
                     (Req.mk (JsString container_ABC123) JsUndefined) one_session).1
    = Some (id session) ∧
    activeSessions (solve_filecrypt (calm 1000)
                      (Req.mk (JsString container_ABC123) JsUndefined) one_session).2
    = <[k := store_links gofileLinks session]> (activeSessions st1) ∧
    solvedLinks (store_links gofileLinks session)
    = foldl (λ m link, JsMap.set (url link) link m) (solvedLinks session) gofileLinks ∧
    (∀ u, JsMap.get u (solvedLinks (store_links gofileLinks session))
          = match last (filter (λ link, url link = u) gofileLinks) with
            | Some link => Some link
            | None => JsMap.get u (solvedLinks session)
            end).
Proof.
  apply (solve_filecrypt_success_merges (calm 1000)
           (Req.mk (JsString container_ABC123) JsUndefined) one_session); reflexivity.
Defined.

Lemma non_string_url_is_500_witness :
  ∃ msg st1 st2,
    solve_filecrypt (calm 1000) (Req.mk JsUndefined JsUndefined) one_session
    = (Res.failure 500 msg, st1) ∧
    get_solved_links (Req.mk JsUndefined JsUndefined) one_session
    = (Res.failure 500 msg, st2) ∧
    Res.status (Res.failure 500 msg) = 500 ∧
    Res.failure 500 msg ≠ Res.failure 400 "Invalid FileCrypt URL" ∧
    activeSessions st1 = activeSessions one_session ∧
    activeSessions st2 = activeSessions one_session ∧
    filter is_browser_call (trace st1) = filter is_browser_call (trace one_session) ∧
    filter is_browser_call (trace st2) = filter is_browser_call (trace one_session).
Proof.
  apply (non_string_url_is_500 (calm 1000) JsUndefined JsUndefined one_session).
  intros s. discriminate.
Defined.

Lemma empty_session_id_skips_check_witness :
  get_solved_links (Req.mk (JsString container_ABC123) (JsString EmptyString)) one_session
  = (links_response old_session, one_session) ∧
  Res.status (links_response old_session) = 200 ∧
  Res.links (links_response old_session) = Some (JsMap.values (solvedLinks old_session)).
Proof.
  apply (empty_session_id_skips_check container_ABC123 "ABC123" old_session one_session);
    reflexivity.
Defined.

(** C7 as stated fails: the empty string is a [sessionId] that differs from
    the stored id, and the answer is 200 with the links, not 403. *)
Lemma empty_session_id_not_forbidden :
  JsString EmptyString ≠ JsString (id old_session) ∧
  activeSessions one_session !! "ABC123" = Some old_session ∧
  (get_solved_links (Req.mk (JsString container_ABC123) (JsString EmptyString))
     one_session).1 ≠ Res.failure 403 "Invalid session ID" ∧
  Res.status (get_solved_links (Req.mk (JsString container_ABC123) (JsString EmptyString))
                one_session).1 = 200 ∧
  Res.links (get_solved_links (Req.mk (JsString container_ABC123) (JsString EmptyString))
               one_session).1 = Some [link_a; link_b].
Proof. split_and!; [discriminate|reflexivity|discriminate|reflexivity..]. Qed.

Lemma session_id_check_witness :
  (get_solved_links (Req.mk (JsString container_ABC123) (JsString "uuid-9")) one_session
   = (Res.failure 403 "Invalid session ID", one_session) ∧
   Res.links (Res.failure 403 "Invalid session ID") = None) ∧
  (get_solved_links (Req.mk (JsString container_ABC123) (JsString "uuid-1")) one_session
   = (links_response old_session, one_session) ∧
   Res.links (links_response old_session) = Some (JsMap.values (solvedLinks old_session)) ∧
   Res.sessionId (links_response old_session) = Some (id old_session)).
Proof.
  split.
  - apply (session_id_check container_ABC123 "ABC123" old_session (JsString "uuid-9")
             one_session); [reflexivity | reflexivity | reflexivity | discriminate].
  - apply (session_id_check container_ABC123 "ABC123" old_session (JsString "uuid-1")
             one_session); reflexivity.
Defined.

(** ** Runs on the sample data *)

(** A key that is set again keeps its place in the map. *)
Example merge_links_keeps_order :
  merge_links [link_a'; link_b] (solvedLinks old_session)
  = [(url link_a, link_a'); (url link_b, link_b)].
Proof. reflexivity. Qed.

(** A first request on an empty store creates a session and times out; a
    second one with the same URL ten minutes later reuses that session. *)
Example second_request_reuses_session :
  let first := solve_filecrypt (stuck 1000)
                 (Req.mk (JsString container_ABC123) JsUndefined) no_session in
  let second := solve_filecrypt (calm 601000)
                  (Req.mk (JsString container_ABC123) JsUndefined) first.2 in
  first.1 = Res.mk 200 false (Some timeout_message) None (Some "uuid-2") None None ∧
  Res.success second.1 = true ∧ Res.sessionId second.1 = Some "uuid-2" ∧
  count_occ Event_eq_dec (trace second.2) Launch = 1%nat.
Proof. by vm_compute. Qed.

(** Two links gathered earlier are still served after a run that timed out. *)
Example links_survive_timeout :
  let after := (solve_filecrypt (stuck 1000)
                  (Req.mk (JsString container_ABC123) JsUndefined) one_session).2 in
  Res.links (get_solved_links (Req.mk (JsString container_ABC123) JsUndefined) after).1
  = Some [link_a; link_b].
Proof. reflexivity. Qed.

(** A session whose age is exactly the threshold is replaced by
    [getFileCryptSession] (line 21 keeps it only below the threshold) and
    kept by the clean-up (line 179 removes it only above). *)
Example age_at_threshold :
  (getFileCryptSession (calm expiredThreshold) "ABC123" one_session).1
  = Normal (fresh_session (calm expiredThreshold) "ABC123" 8) ∧
  activeSessions (cleanup_sessions expiredThreshold (λ _, Resolved tt) one_session).2
  = activeSessions one_session.
Proof. by vm_compute. Qed.

(* ===================================================================== *)
(** * Further properties *)

(** ** What a match says about the URL *)

Module PatternMore.
Import Pattern.

Lemma class_run_greedy s :
  ∃ post, s = class_run s ++ post ∧ class_run post = [].
Proof.
  induction s as [|c s (post & Hs & Hpost)]; simpl.
  - by exists [].
  - destruct (in_class c) eqn:E.
    + exists post. split; [simpl; congruence | done].
    + exists (c :: s). split; [done|]. simpl. by rewrite E.
Qed.

Lemma capture_inv tail ident :
  capture tail = Some ident →
  ident = class_run tail ∧ ident ≠ [] ∧ Forall (λ c, in_class c = true) ident ∧
  ∃ post, tail = ident ++ post ∧ class_run post = [].
Proof.
  unfold capture. destruct (PatternFacts.class_run_spec tail) as (_ & _ & Hall).
  destruct (class_run_greedy tail) as (post & Hs & Hpost).
  destruct (class_run tail) as [|c r] eqn:E; [done|].
  intros [= <-]. split_and!; [done..|]. by exists post.
Qed.

Lemma match_here_inv rest ident :
  match_here rest = Some ident →
  ∃ h a tail,
    rest = h ++ a ++ tail ∧ same_ci h host ∧
    (same_ci a alt_container ∨ same_ci a alt_link) ∧ capture tail = Some ident.
Proof.
  unfold match_here. destruct (strip_ci host rest) as [r|] eqn:E; [|done].
  apply PatternFacts.strip_ci_Some in E as (h & -> & Hh).
  assert (∀ alt, branch alt r = Some ident →
            ∃ a tail, r = a ++ tail ∧ same_ci a alt ∧ capture tail = Some ident) as Hb.
  { intros alt. unfold branch. destruct (strip_ci alt r) as [t|] eqn:Et; [|done].
    apply PatternFacts.strip_ci_Some in Et as (a & -> & Ha). intros ?. by exists a, t. }
  destruct (branch alt_container r) as [i|] eqn:E1.
  - intros [= ->]. apply Hb in E1 as (a & tail & -> & ? & ?). exists h, a, tail. auto.
  - intros (a & tail & -> & ? & ?)%Hb. exists h, a, tail. auto.
Qed.

Lemma search_inv s ident :
  search s = Some ident →
  ∃ pre rest,
    s = pre ++ rest ∧ match_here rest = Some ident ∧
    ∀ p r, pre = p ++ r → r ≠ [] → match_here (r ++ rest) = None.
Proof.
  induction s as [|c s IH].
  - intros H. by cbn in H.
  - rewrite PatternFacts.search_cons. destruct (match_here (c :: s)) as [i|] eqn:E.
    + intros [= ->]. exists [], (c :: s). split_and!; [done..|].
      intros p r Hpr Hr. by destruct p, r.
    + intros (pre & rest & -> & Hm & Hleft)%IH.
      exists (c :: pre), rest. split_and!; [done..|].
      intros [|c' p] r Hpr Hr; simpl in Hpr.
      * by subst r.
      * simplify_eq. by eapply Hleft.
Qed.

(** A path literal other than [Container/] does not pass for it. *)
Lemma branch_container_link a rest :
  same_ci a alt_link → branch alt_container (a ++ rest) = None.
Proof.
  intros Ha. unfold same_ci, alt_link in Ha. apply Forall2_cons_inv_r in Ha
    as (c & a' & Hc & _ & ->).
  unfold branch, alt_container. simpl.
  assert (eq_ci "C" c = false) as ->; [|done].
  unfold eq_ci in *. apply Ascii.eqb_eq in Hc. by rewrite <- Hc.
Qed.

Lemma match_here_literals h a rest :
  same_ci h host → same_ci a alt_container ∨ same_ci a alt_link →
  match_here (h ++ a ++ rest) = capture rest.
Proof.
  intros Hh Ha. unfold match_here. rewrite (PatternFacts.strip_ci_same _ _ _ Hh).
  destruct Ha as [Ha|Ha].
  - unfold branch at 1. rewrite (PatternFacts.strip_ci_same _ _ _ Ha).
    destruct (capture rest) eqn:E; [done|].
    unfold branch. destruct (strip_ci alt_link (a ++ rest)) as [t|] eqn:Et; [|done].
    exfalso. unfold same_ci, alt_container in Ha.
    apply Forall2_cons_inv_r in Ha as (c & a' & Hc & _ & ->).
    simpl in Et. assert (eq_ci "L" c = false) as Hl.
    { unfold eq_ci in *. apply Ascii.eqb_eq in Hc. by rewrite <- Hc. }
    by rewrite Hl in Et.
  - rewrite branch_container_link by done.
    unfold branch. by rewrite (PatternFacts.strip_ci_same _ _ _ Ha).
Qed.

(** With no [f] before the host literal, the match is the one at the
    literal. *)
Lemma search_plain pre h a rest ident :
  forallb (λ c, negb (is_f c)) pre = true →
  same_ci h host → same_ci a alt_container ∨ same_ci a alt_link →
  capture rest = Some ident →
  search (pre ++ h ++ a ++ rest) = Some ident.
Proof.
  intros Hpre Hh Ha Hc. rewrite PatternFacts.search_skip by done.
  apply PatternFacts.search_here. by rewrite match_here_literals.
Qed.

End PatternMore.

Lemma string_of_list_ascii_app (a b : list ascii) :
  string_of_list_ascii (a ++ b) = string_of_list_ascii a +:+ string_of_list_ascii b.
Proof. induction a as [|c a IH]; simpl; [done|]. by rewrite IH. Qed.

Lemma string_of_list_ascii_inj_l (s : string) (l : list ascii) :
  list_ascii_of_string s = l → s = string_of_list_ascii l.
Proof. intros <-. by rewrite string_of_list_ascii_of_string. Qed.

(** X1.  The identifier that [match] yields is a non-empty run of letters
    and digits of the URL, taken as it stands; it follows the host literal
    and one of the two path literals, which may be in any letter case, and
    it is the whole run: what comes after it does not start with a letter or
    a digit. *)
Theorem filecryptIdMatch_sound (filecryptUrl ident : string) :
  filecryptIdMatch filecryptUrl = Some ident →
  alphanumeric ident ∧
  ∃ pre h a post : string,
    filecryptUrl = pre +:+ h +:+ a +:+ ident +:+ post ∧
    ci_equal h "filecrypt.co/" ∧
    (ci_equal a "Container/" ∨ ci_equal a "Link/") ∧
    no_leading_alnum post.
Proof.
  unfold filecryptIdMatch. destruct (Pattern.search _) as [i|] eqn:E; [|done].
  intros [= <-].
  apply PatternMore.search_inv in E as (pre & rest & Hs & Hm & _).
  apply PatternMore.match_here_inv in Hm as (h & a & tail & -> & Hh & Ha & Hc).
  apply PatternMore.capture_inv in Hc as (_ & Hne & Hall & post & -> & Hpost).
  split.
  - split.
    + by destruct i.
    + by rewrite list_ascii_of_string_of_list_ascii.
  - exists (string_of_list_ascii pre), (string_of_list_ascii h),
      (string_of_list_ascii a), (string_of_list_ascii post).
    unfold ci_equal, no_leading_alnum.
    rewrite !list_ascii_of_string_of_list_ascii, <- !string_of_list_ascii_app.
    split_and!; [by apply string_of_list_ascii_inj_l|done..].
Qed.

(** X2.  The match is the leftmost one: the URL splits into a part before
    the match and the rest, the pattern matches at the head of the rest and
    yields the identifier there, and it matches at no position inside the
    part before. *)
Theorem filecryptIdMatch_leftmost (filecryptUrl ident : string) :
  filecryptIdMatch filecryptUrl = Some ident →
  ∃ pre rest : string,
    filecryptUrl = pre +:+ rest ∧
    Pattern.match_here (list_ascii_of_string rest) = Some (list_ascii_of_string ident) ∧
    ∀ p r : string,
      pre = p +:+ r → r ≠ EmptyString →
      Pattern.match_here (list_ascii_of_string (r +:+ rest)) = None.
Proof.
  unfold filecryptIdMatch. destruct (Pattern.search _) as [i|] eqn:E; [|done].
  intros [= <-].
  apply PatternMore.search_inv in E as (pre & rest & Hs & Hm & Hleft).
  exists (string_of_list_ascii pre), (string_of_list_ascii rest).
  rewrite !list_ascii_of_string_of_list_ascii, <- string_of_list_ascii_app.
  split_and!; [by apply string_of_list_ascii_inj_l|done|].
  intros p r Hpr Hr. rewrite list_ascii_of_string_app, list_ascii_of_string_of_list_ascii.
  apply (Hleft (list_ascii_of_string p)).
  - by rewrite <- list_ascii_of_string_app, <- Hpr, list_ascii_of_string_of_list_ascii.
  - by destruct r.
Qed.

(** X3.  When nothing before the host literal contains the letter [f], the
    run of letters and digits [X] that follows the path literal, and that is
    not continued by [post], is the identifier, in the letter case it has in
    the URL; the letter case of the host and path literals does not matter. *)
Theorem filecryptIdMatch_plain (pre h a X post : string) :
  no_f pre →
  ci_equal h "filecrypt.co/" →
  ci_equal a "Container/" ∨ ci_equal a "Link/" →
  alphanumeric X →
  no_leading_alnum post →
  filecryptIdMatch (pre +:+ h +:+ a +:+ X +:+ post) = Some X.
Proof.
  intros Hpre Hh Ha [Hne Hall] Hpost. unfold filecryptIdMatch.
  rewrite !list_ascii_of_string_app.
  rewrite (PatternMore.search_plain _ _ _ _ (list_ascii_of_string X)); try done.
  - simpl. by rewrite string_of_list_ascii_of_string.
  - unfold Pattern.capture. rewrite PatternFacts.class_run_app.
    assert (forallb Pattern.in_class (list_ascii_of_string X) = true) as ->.
    { apply forallb_forall. intros c Hc. rewrite Forall_forall in Hall. apply Hall.
      by apply list_elem_of_In. }
    rewrite Hpost, app_nil_r. by destruct X.
Qed.

Lemma filecryptIdMatch_sound_witness :
  alphanumeric "abc123" ∧
  ∃ pre h a post : string,
    "http://www.FILECRYPT.CO/link/abc123.html" = pre +:+ h +:+ a +:+ "abc123" +:+ post ∧
    ci_equal h "filecrypt.co/" ∧
    (ci_equal a "Container/" ∨ ci_equal a "Link/") ∧
    no_leading_alnum post.
Proof.
  apply (filecryptIdMatch_sound "http://www.FILECRYPT.CO/link/abc123.html" "abc123").
  reflexivity.
Defined.

Lemma filecryptIdMatch_leftmost_witness :
  ∃ pre rest : string,
    "a filecrypt.co/Link/ filecrypt.co/Link/Q7 filecrypt.co/Link/Z" = pre +:+ rest ∧
    Pattern.match_here (list_ascii_of_string rest) = Some (list_ascii_of_string "Q7") ∧
    ∀ p r : string,
      pre = p +:+ r → r ≠ EmptyString →
      Pattern.match_here (list_ascii_of_string (r +:+ rest)) = None.
Proof.
  apply (filecryptIdMatch_leftmost
           "a filecrypt.co/Link/ filecrypt.co/Link/Q7 filecrypt.co/Link/Z" "Q7").
  reflexivity.
Defined.

Lemma filecryptIdMatch_plain_witness :
  filecryptIdMatch ("https://www." +:+ "FileCrypt.CO/" +:+ "container/" +:+ "aB3" +:+ "?x=1")
  = Some "aB3".
Proof.
  apply (filecryptIdMatch_plain "https://www." "FileCrypt.CO/" "container/" "aB3" "?x=1").
  - reflexivity.
  - by repeat constructor.
  - left. by repeat constructor.
  - split; [done | by repeat constructor].
  - reflexivity.
Defined.

(** ** The link map *)

Lemma JsMap_keys_set {V} (k : string) (v : V) (m : JsMap.t V) :
  JsMap.keys (JsMap.set k v m)
  = if decide (k ∈ JsMap.keys m) then JsMap.keys m else JsMap.keys m ++ [k].
Proof.
  unfold JsMap.keys. induction m as [|[k' v'] m IH]; [done|].
  cbn [JsMap.set]. destruct (decide (k = k')) as [->|Hne]; rewrite !fmap_cons; cbn [fst].
  - rewrite decide_True; [done|left].
  - rewrite IH. destruct (decide (k ∈ m.*1)) as [Hin|Hin].
    + rewrite decide_True; [done|by right].
    + rewrite decide_False; [done|]. rewrite elem_of_cons. by intros [?|?].
Qed.

Lemma JsMap_set_wf (l : Link) (m : JsMap.t Link) :
  links_wf m → links_wf (JsMap.set (url l) l m).
Proof.
  intros [Hnd Hall]. split.
  - rewrite JsMap_keys_set. case_decide; [done|].
    apply NoDup_app. split_and!; [done| |apply NoDup_singleton].
    intros x Hx ->%list_elem_of_singleton. done.
  - clear Hnd. induction m as [|[k' v'] m IH]; simpl.
    + by repeat constructor.
    + apply Forall_cons in Hall as [Hhd Htl].
      destruct (decide (url l = k')); constructor; auto.
Qed.

Lemma merge_links_wf (gofileLinks : list Link) (m : JsMap.t Link) :
  links_wf m → links_wf (merge_links gofileLinks m).
Proof.
  unfold merge_links. revert m.
  induction gofileLinks as [|l L IH]; intros m Hm; simpl; [done|].
  by apply IH, JsMap_set_wf.
Qed.

Lemma merge_links_keys_prefix (gofileLinks : list Link) (m : JsMap.t Link) :
  JsMap.keys m `prefix_of` JsMap.keys (merge_links gofileLinks m).
Proof.
  unfold merge_links. revert m.
  induction gofileLinks as [|l L IH]; intros m; simpl; [done|].
  etrans; [|apply IH]. rewrite JsMap_keys_set. case_decide; [done|].
  by apply prefix_app_r.
Qed.

Lemma merge_links_keys_elem (gofileLinks : list Link) (m : JsMap.t Link) (u : string) :
  u ∈ JsMap.keys (merge_links gofileLinks m)
  ↔ u ∈ JsMap.keys m ∨ u ∈ url <$> gofileLinks.
Proof.
  unfold merge_links. revert m.
  induction gofileLinks as [|l L IH]; intros m; simpl.
  - rewrite elem_of_nil. tauto.
  - rewrite IH, JsMap_keys_set, elem_of_cons. case_decide as Hin.
    + split; [tauto|]. intros [?|[->|?]]; auto.
    + rewrite elem_of_app, list_elem_of_singleton. tauto.
Qed.

Lemma JsMap_get_values {V} (u : string) (v : V) (m : JsMap.t V) :
  JsMap.get u m = Some v → v ∈ JsMap.values m.
Proof.
  unfold JsMap.values. induction m as [|[k' v'] m IH]; simpl; [done|].
  destruct (decide (u = k')); [intros [= ->]; left | intros ?; right; auto].
Qed.

Lemma JsMap_get_is_Some {V} (u : string) (m : JsMap.t V) :
  is_Some (JsMap.get u m) ↔ u ∈ JsMap.keys m.
Proof.
  unfold JsMap.keys. induction m as [|[k' v'] m IH]; simpl.
  - rewrite elem_of_nil. split; [by intros [? ?]|done].
  - rewrite elem_of_cons. destruct (decide (u = k')) as [->|Hne].
    + split; eauto.
    + rewrite IH. split; [by right | by intros [?|?]].
Qed.

(** X4.  Merging harvested records keeps the link map well formed, leaves
    the urls that were stored where they are, in the same order (new urls
    are added after them), and makes the stored urls those that were stored
    before together with those just harvested. *)
Theorem merge_links_order (gofileLinks : list Link) (m : JsMap.t Link) :
  links_wf m →
  links_wf (merge_links gofileLinks m) ∧
  JsMap.keys m `prefix_of` JsMap.keys (merge_links gofileLinks m) ∧
  ∀ u, u ∈ JsMap.keys (merge_links gofileLinks m)
       ↔ u ∈ JsMap.keys m ∨ u ∈ url <$> gofileLinks.
Proof.
  intros Hm. split_and!.
  - by apply merge_links_wf.
  - apply merge_links_keys_prefix.
  - apply merge_links_keys_elem.
Qed.

Lemma merge_links_order_witness :
  links_wf (merge_links [link_b; link_a'] [(url link_a, link_a)]) ∧
  JsMap.keys [(url link_a, link_a)]
    `prefix_of` JsMap.keys (merge_links [link_b; link_a'] [(url link_a, link_a)]) ∧
  ∀ u, u ∈ JsMap.keys (merge_links [link_b; link_a'] [(url link_a, link_a)])
       ↔ u ∈ JsMap.keys [(url link_a, link_a)] ∨ u ∈ url <$> [link_b; link_a'].
Proof.
  apply (merge_links_order [link_b; link_a'] [(url link_a, link_a)]).
  split; [apply NoDup_singleton | by repeat constructor].
Defined.

(** ** The store across the handlers *)

Lemma solve_filecrypt_throw w target sid st k msg st1 :
  filecryptIdMatch target = Some k →
  getFileCryptSession w k st = (Throw msg, st1) →
  solve_filecrypt w (Req.mk (JsString target) sid) st
  = (Res.failure 500 msg,
     mkState (activeSessions st1)
       (trace st1 ++ [ConsoleError ("Error solving FileCrypt:" +:+ " " +:+ msg)])).
Proof.
  intros Hk Hs. unfold solve_filecrypt, respond, solve_filecrypt_body. run_M.
  by rewrite Hk, Hs.
Qed.

Lemma getFileCryptSession_other w k st k' :
  k' ≠ k →
  activeSessions (getFileCryptSession w k st).2 !! k' = activeSessions st !! k'.
Proof.
  intros Hne. rewrite getFileCryptSession_eq.
  destruct (activeSessions st !! k) as [old|] eqn:E.
  - case_bool_decide; [done|]. rewrite createSession_eq.
    destruct (launch w); simpl.
    + by rewrite lookup_insert_ne, lookup_delete_ne.
    + by rewrite lookup_delete_ne.
  - rewrite createSession_eq. destruct (launch w); simpl; [|done].
    by rewrite lookup_insert_ne.
Qed.

Lemma links_wf_nil : links_wf [].
Proof. split; constructor. Qed.

Lemma getFileCryptSession_wf w k st :
  store_wf st → store_wf (getFileCryptSession w k st).2.
Proof.
  intros Hwf k' s'. destruct (decide (k' = k)) as [->|Hne].
  - rewrite getFileCryptSession_eq.
    destruct (activeSessions st !! k) as [old|] eqn:E.
    + case_bool_decide; [apply Hwf|]. rewrite createSession_eq.
      destruct (launch w); simpl.
      * rewrite lookup_insert_eq. intros [= <-]. split; [done|apply links_wf_nil].
      * by rewrite lookup_delete_eq.
    + rewrite createSession_eq. destruct (launch w); simpl.
      * rewrite lookup_insert_eq. intros [= <-]. split; [done|apply links_wf_nil].
      * by rewrite E.
  - rewrite getFileCryptSession_other by done. apply Hwf.
Qed.

(** Where the store can be after a request to [/solve-filecrypt]: as it
    was, or as [getFileCryptSession] left it, with the harvested links
    written to the session of the identifier or not. *)
Lemma solve_filecrypt_store w req st :
  activeSessions (solve_filecrypt w req st).2 = activeSessions st ∨
  ∃ target k,
    Req.filecryptUrl req = JsString target ∧ filecryptIdMatch target = Some k ∧
    (activeSessions (solve_filecrypt w req st).2
       = activeSessions (getFileCryptSession w k st).2 ∨
     ∃ gofileLinks,
       evaluate w = Resolved gofileLinks ∧
       activeSessions (solve_filecrypt w req st).2
       = alter (store_links gofileLinks) k (activeSessions (getFileCryptSession w k st).2)).
Proof.
  destruct req as [v sid]. destruct (JsValue_string_or_not v) as [[target ->]|Hv].
  - destruct (filecryptIdMatch target) as [k|] eqn:Hk.
    + right. exists target, k. split_and!; [done..|].
      destruct (getFileCryptSession w k st) as [[session|msg] st1] eqn:Hs.
      * destruct (solve_filecrypt_cases w target sid st k session st1 Hk Hs)
          as (res & st' & new & -> & _ & _ & Hcases). simpl.
        destruct Hcases as [(L & _ & HL & ->)|[_ [->|(L & HL & ->)]]]; eauto.
      * rewrite (solve_filecrypt_throw _ _ _ _ _ _ _ Hk Hs). by left.
    + left. by rewrite solve_filecrypt_no_match.
  - left. destruct (solve_filecrypt_not_string w v sid st Hv) as [msg ->]. done.
Qed.

Lemma store_links_wf gofileLinks (m : gmap string Session) k :
  (∀ k s, m !! k = Some s → filecryptId s = k ∧ links_wf (solvedLinks s)) →
  ∀ k' s, alter (store_links gofileLinks) k m !! k' = Some s →
          filecryptId s = k' ∧ links_wf (solvedLinks s).
Proof.
  intros Hwf k' s. destruct (decide (k' = k)) as [->|Hne].
  - rewrite lookup_alter_eq. destruct (m !! k) as [s0|] eqn:E; [|done].
    intros [= <-]. destruct (Hwf _ _ E) as [? ?]. split; [done|].
    by apply merge_links_wf.
  - rewrite lookup_alter_ne by done. apply Hwf.
Qed.

Lemma get_solved_links_state req st :
  activeSessions (get_solved_links req st).2 = activeSessions st ∧
  filter is_browser_call (trace (get_solved_links req st).2)
  = filter is_browser_call (trace st).
Proof.
  destruct req as [v sid]. destruct (JsValue_string_or_not v) as [[target ->]|Hv].
  - by rewrite get_solved_links_eq.
  - destruct (get_solved_links_not_string v sid st Hv) as [msg ->]. simpl.
    split; [done|].
    by rewrite filter_app, filter_cons_False, filter_nil, app_nil_r by (simpl; tauto).
Qed.

(** X5.  The store starts well formed and every handler keeps it so: each
    session is stored under its own [filecryptId], and in its link map no
    url occurs twice and every record is stored under its own [url]. *)
Theorem store_wf_invariant :
  store_wf (mkState ∅ []) ∧
  ∀ st, store_wf st →
    (∀ w req, store_wf (solve_filecrypt w req st).2) ∧
    (∀ req, store_wf (get_solved_links req st).2) ∧
    (∀ now close, store_wf (cleanup_sessions now close st).2).
Proof.
  split; [intros k s; simpl; by rewrite lookup_empty|].
  intros st Hwf. split_and!.
  - intros w req. unfold store_wf.
    destruct (solve_filecrypt_store w req st)
      as [->|(target & k & _ & _ & [->|(L & _ & ->)])].
    + apply Hwf.
    + apply getFileCryptSession_wf, Hwf.
    + apply store_links_wf, getFileCryptSession_wf, Hwf.
  - intros req. unfold store_wf.
    destruct (get_solved_links_state req st) as [-> _]. apply Hwf.
  - intros now close. unfold store_wf.
    destruct (cleanup_sessions_eq now close st) as (new & -> & _). simpl.
    intros k s [Hs _]%map_lookup_filter_Some. by apply Hwf.
Qed.

Lemma one_session_wf : store_wf one_session.
Proof.
  intros k s Hs. unfold one_session in Hs. cbn [activeSessions] in Hs.
  apply lookup_singleton_Some in Hs as [<- <-]. split; [done|].
  split; [|by repeat constructor]. apply (bool_decide_unpack _). by vm_compute.
Qed.

Lemma store_wf_invariant_witness :
  store_wf (solve_filecrypt (calm 1000) (Req.mk (JsString container_ABC123) JsUndefined)
              one_session).2 ∧
  store_wf (cleanup_sessions 3600000 (λ _, Resolved tt) one_session).2.
Proof.
  destruct (proj2 store_wf_invariant one_session one_session_wf) as (Hsolve & _ & Hclean).
  split; [apply Hsolve | apply Hclean].
Defined.

(** X6.  [/get-solved-links] only reads: whatever the request, the sessions
    are what they were and no call to the browser library is made (the
    only thing it may add to the log is the console line of the 500
    answer). *)
Theorem get_solved_links_read_only (req : Req.t) (st : State) :
  activeSessions (get_solved_links req st).2 = activeSessions st ∧
  filter is_browser_call (trace (get_solved_links req st).2)
  = filter is_browser_call (trace st).
Proof. apply get_solved_links_state. Qed.

(** ** The clean-up and the browsers *)

Lemma cleanup_loop_trace now close entries cleanedCount st :
  trace (cleanup_loop now close entries cleanedCount st).2
  = trace st ++ close_calls now close entries.
Proof.
  revert cleanedCount st. induction entries as [|[k s] rest IH]; intros c st.
  - unfold close_calls. simpl. by rewrite app_nil_r.
  - rewrite cleanup_loop_cons. unfold close_calls.
    destruct (decide (expired now s)) as [Hs|Hs].
    + rewrite filter_cons_True by done. rewrite IH. simpl.
      by rewrite <- !app_assoc.
    + rewrite filter_cons_False by done. apply IH.
Qed.

Lemma close_calls_browser now close entries :
  filter is_browser_call (close_calls now close entries)
  = (λ e, BrowserClose (browser e.2)) <$> filter (stale now) entries.
Proof.
  unfold close_calls. induction (filter (stale now) entries) as [|e l IH]; [done|].
  cbn [flat_map]. rewrite fmap_cons, filter_app, IH, filter_cons_True by done.
  f_equal. f_equal.
  destruct (close (browser e.2)); unfold close_log; [done|].
  by rewrite filter_cons_False by (simpl; tauto).
Qed.

(** X7.  The browser calls of a clean-up are exactly one close per removed
    session, of that session's browser, whether or not the closes succeed:
    as many closes as sessions removed, and no launch, page or navigation
    call. *)
Theorem cleanup_sessions_closes (now : Z) (close : BrowserHandle → Outcome unit)
    (st : State) :
  ∃ new,
    trace (cleanup_sessions now close st).2 = trace st ++ new ∧
    filter is_browser_call new
      ≡ₚ (λ e, BrowserClose (browser e.2))
           <$> map_to_list (filter (stale now) (activeSessions st)) ∧
    length (filter is_browser_call new)
    = (size (activeSessions st) - size (activeSessions (cleanup_sessions now close st).2))%nat.
Proof.
  exists (close_calls now close (map_to_list (activeSessions st))).
  assert (trace (cleanup_sessions now close st).2
          = trace st ++ close_calls now close (map_to_list (activeSessions st))) as Htr.
  { unfold cleanup_sessions, respond.
    unfold mbind at 1, M_bind. unfold read_sessions at 1.
    unfold mbind at 1, M_bind.
    pose proof (cleanup_loop_trace now close (map_to_list (activeSessions st)) 0 st) as Ht.
    destruct (cleanup_loop_eq now close (map_to_list (activeSessions st)) 0 st)
      as (new & Heq & _).
    rewrite Heq in Ht |- *. done. }
  assert (filter (stale now) (map_to_list (activeSessions st))
          ≡ₚ map_to_list (filter (stale now) (activeSessions st))) as Hperm.
  { rewrite (map_filter_alt _ (activeSessions st)). symmetry.
    apply map_to_list_to_map. eapply NoDup_fmap_fst.
    - intros k x y [_ Hx%elem_of_map_to_list]%list_elem_of_filter
        [_ Hy%elem_of_map_to_list]%list_elem_of_filter. congruence.
    - apply NoDup_filter, NoDup_map_to_list. }
  split_and!; [done| |].
  - rewrite close_calls_browser. by apply fmap_Permutation.
  - rewrite close_calls_browser, length_fmap, <- size_filter_entries.
    destruct (cleanup_sessions_eq now close st) as (new & -> & _). simpl.
    pose proof (size_stale_fresh now (activeSessions st)). lia.
Qed.

(** X8.  After a clean-up at [now], the accessor answers 404 for a session
    that was older than the threshold, and answers for any other stored
    session what it answered before. *)
Theorem cleanup_then_get_solved_links (now : Z) (close : BrowserHandle → Outcome unit)
    (target k : string) (sid : JsValue) (s : Session) (st : State) :
  filecryptIdMatch target = Some k →
  activeSessions st !! k = Some s →
  (expired now s →
   (get_solved_links (Req.mk (JsString target) sid) (cleanup_sessions now close st).2).1
   = Res.failure 404 "No active session found") ∧
  (¬ expired now s →
   (get_solved_links (Req.mk (JsString target) sid) (cleanup_sessions now close st).2).1
   = (get_solved_links (Req.mk (JsString target) sid) st).1).
Proof.
  intros Hk Hs. rewrite !get_solved_links_eq, Hk, Hs.
  destruct (cleanup_sessions_eq now close st) as (new & -> & _). simpl. split.
  - intros Hexp. rewrite (proj2 (map_lookup_filter_None _ _ _)); [done|].
    right. intros s' ? Hf. simplify_eq. by apply Hf.
  - intros Hexp. by rewrite (proj2 (map_lookup_filter_Some _ _ _ _) (conj Hs Hexp)).
Qed.

Lemma cleanup_then_get_solved_links_witness :
  (get_solved_links (Req.mk (JsString container_ABC123) JsUndefined)
     (cleanup_sessions 3600000 (λ _, Rejected "gone") one_session).2).1
  = Res.failure 404 "No active session found".
Proof.
  apply (cleanup_then_get_solved_links 3600000 (λ _, Rejected "gone") container_ABC123
           "ABC123" JsUndefined old_session one_session); [reflexivity..|by vm_compute].
Defined.

(** X9.  The two expiry tests differ at the threshold itself: a session
    whose age is exactly 30 minutes is kept by the clean-up, while
    [getFileCryptSession] closes its browser and removes it. *)
Theorem age_exactly_threshold (w : World) (close : BrowserHandle → Outcome unit)
    (k : string) (s : Session) (st : State) :
  activeSessions st !! k = Some s →
  now_on_lookup w - createdAt s = expiredThreshold →
  activeSessions (cleanup_sessions (now_on_lookup w) close st).2 !! k = Some s ∧
  ∃ new,
    trace (getFileCryptSession w k st).2
    = trace st ++ BrowserClose (browser s) :: new ∧
    ∀ res st', getFileCryptSession w k st = (res, st') →
      activeSessions st' !! k
      = match launch w with
        | Resolved b => Some (fresh_session w k b)
        | Rejected _ => None
        end.
Proof.
  intros Hs Hage. split.
  - destruct (cleanup_sessions_eq (now_on_lookup w) close st) as (new & -> & _). simpl.
    apply map_lookup_filter_Some. split; [done|]. unfold fresh, expired. simpl. lia.
  - rewrite getFileCryptSession_eq, Hs, bool_decide_false by lia.
    rewrite createSession_eq. destruct (launch w) as [b|msg]; simpl.
    + eexists. split; [by rewrite <- app_assoc|]. intros ?? [= <- <-]. simpl.
      by rewrite lookup_insert_eq.
    + eexists. split; [by rewrite <- app_assoc|]. intros ?? [= <- <-]. simpl.
      by rewrite lookup_delete_eq.
Qed.

Lemma age_exactly_threshold_witness :
  activeSessions (cleanup_sessions (now_on_lookup (calm expiredThreshold))
                    (λ _, Resolved tt) one_session).2 !! "ABC123" = Some old_session ∧
  ∃ new,
    trace (getFileCryptSession (calm expiredThreshold) "ABC123" one_session).2
    = trace one_session ++ BrowserClose (browser old_session) :: new ∧
    ∀ res st', getFileCryptSession (calm expiredThreshold) "ABC123" one_session = (res, st') →
      activeSessions st' !! "ABC123"
      = Some (fresh_session (calm expiredThreshold) "ABC123" 8).
Proof.
  apply (age_exactly_threshold (calm expiredThreshold) (λ _, Resolved tt) "ABC123"
           old_session one_session); reflexivity.
Defined.

(** ** Failures of the browser during a run *)

(** X10.  When no live session is stored for the identifier and the launch
    of the browser fails, the request is answered 500 with the message of
    the failure, no page is opened, and the store is left without a session
    for the identifier: the expired one, if there was one, is gone. *)
Theorem solve_filecrypt_launch_failure (w : World) (target k msg : string)
    (sid : JsValue) (st : State) :
  filecryptIdMatch target = Some k →
  is_live (now_on_lookup w) st k = false →
  launch w = Rejected msg →
  (solve_filecrypt w (Req.mk (JsString target) sid) st).1 = Res.failure 500 msg ∧
  activeSessions (solve_filecrypt w (Req.mk (JsString target) sid) st).2
  = delete k (activeSessions st) ∧
  ∃ new,
    trace (solve_filecrypt w (Req.mk (JsString target) sid) st).2 = trace st ++ new ∧
    Forall (λ e, ∀ b, e ≠ NewPage b) new.
Proof.
  intros Hk Hlive Hl. unfold is_live in Hlive.
  assert (∃ new, getFileCryptSession w k st
                 = (Throw msg, mkState (delete k (activeSessions st)) (trace st ++ new))
                 ∧ Forall (λ e, ∀ b, e ≠ NewPage b) new) as (new & Hs & Hnew).
  { rewrite getFileCryptSession_eq.
    destruct (activeSessions st !! k) as [old|] eqn:E.
    - rewrite Hlive, createSession_eq, Hl. simpl. eexists. split.
      + by rewrite <- app_assoc.
      + destruct (browser_close w (browser old)); by repeat constructor.
    - rewrite createSession_eq, Hl. rewrite delete_id by done.
      eexists. split; [done|]. by repeat constructor. }
  rewrite (solve_filecrypt_throw _ _ _ _ _ _ _ Hk Hs). simpl. split_and!; [done..|].
  eexists. split; [by rewrite <- app_assoc|].
  apply Forall_app. split; [done|]. by repeat constructor.
Qed.

Lemma solve_filecrypt_launch_failure_witness :
  let w := mkWorld 3600000 (λ _, Resolved tt) (Rejected "no chrome") "uuid-2" 3600000
             (Resolved 1%nat) (Resolved tt) (Resolved tt) (Resolved tt)
             (Resolved []) (Resolved tt) (Resolved tt) in
  (solve_filecrypt w (Req.mk (JsString container_ABC123) JsUndefined) one_session).1
  = Res.failure 500 "no chrome" ∧
  activeSessions (solve_filecrypt w (Req.mk (JsString container_ABC123) JsUndefined)
                    one_session).2
  = delete "ABC123" (activeSessions one_session) ∧
  ∃ new,
    trace (solve_filecrypt w (Req.mk (JsString container_ABC123) JsUndefined)
             one_session).2 = trace one_session ++ new ∧
    Forall (λ e, ∀ b, e ≠ NewPage b) new.
Proof.
  intros w.
  apply (solve_filecrypt_launch_failure w container_ABC123 "ABC123" "no chrome"
           JsUndefined one_session); reflexivity.
Defined.

(** X11.  When the navigation fails, the request is answered 500 with the
    message of the failure; the session stays in the store as
    [getFileCryptSession] left it, and the page that was opened is not
    closed: the calls of the run after the session was obtained are the
    opening of the page, the navigation and the console line. *)
Theorem solve_filecrypt_goto_failure (w : World) (target k msg : string) (sid : JsValue)
    (st st1 : State) (session : Session) (page : PageHandle) :
  filecryptIdMatch target = Some k →
  getFileCryptSession w k st = (Normal session, st1) →
  newPage w = Resolved page →
  goto w = Rejected msg →
  ∃ st',
    solve_filecrypt w (Req.mk (JsString target) sid) st = (Res.failure 500 msg, st') ∧
    activeSessions st' = activeSessions st1 ∧
    activeSessions st' !! k = Some session ∧
    trace st' = trace st1 ++ [NewPage (browser session); Goto page target;
                              ConsoleError ("Error solving FileCrypt:" +:+ " " +:+ msg)] ∧
    PageClose page ∉ drop (length (trace st1)) (trace st').
Proof.
  intros Hk Hs Hp Hg. eexists. split.
  { unfold solve_filecrypt, respond, solve_filecrypt_body. run_M.
    rewrite Hk, Hs, Hp, Hg. simpl. reflexivity. }
  simpl. split_and!; [done|by eapply getFileCryptSession_stored|by rewrite <- !app_assoc|].
  rewrite <- !app_assoc, drop_app_length. simpl.
  rewrite !elem_of_cons, elem_of_nil. by intros [?|[?|[?|[]]]].
Qed.

Lemma solve_filecrypt_goto_failure_witness :
  let w := mkWorld 1000 (λ _, Resolved tt) (Resolved 8%nat) "uuid-2" 1000
             (Resolved 1%nat) (Rejected "net::ERR_FAILED") (Resolved tt) (Resolved tt)
             (Resolved []) (Resolved tt) (Resolved tt) in
  ∃ st',
    solve_filecrypt w (Req.mk (JsString container_ABC123) JsUndefined) one_session
    = (Res.failure 500 "net::ERR_FAILED", st') ∧
    activeSessions st' = activeSessions one_session ∧
    activeSessions st' !! "ABC123" = Some old_session ∧
    trace st' = trace one_session
                ++ [NewPage (browser old_session); Goto 1 container_ABC123;
                    ConsoleError ("Error solving FileCrypt:" +:+ " " +:+ "net::ERR_FAILED")] ∧
    PageClose 1 ∉ drop (length (trace one_session)) (trace st').
Proof.
  intros w.
  apply (solve_filecrypt_goto_failure w container_ABC123 "ABC123" "net::ERR_FAILED"
           JsUndefined one_session one_session old_session 1); reflexivity.
Defined.

(** X12.  When the links were harvested and stored but closing the page
    then fails, and the close in the [catch] block succeeds, the request is
    answered with the timeout failure although the session now holds the
    harvested links, which the accessor serves; the close of the page was
    called twice. *)
Theorem solve_filecrypt_close_failure (w : World) (target k msg : string) (sid : JsValue)
    (st st1 : State) (session : Session) (page : PageHandle) (gofileLinks : list Link) :
  filecryptIdMatch target = Some k →
  getFileCryptSession w k st = (Normal session, st1) →
  newPage w = Resolved page →
  goto w = Resolved tt →
  waitForLinks w = Resolved tt →
  evaluate w = Resolved gofileLinks →
  page_close w = Rejected msg →
  page_close_in_catch w = Resolved tt →
  ∃ st',
    solve_filecrypt w (Req.mk (JsString target) sid) st = (timeout_response session, st') ∧
    trace st' = trace st1 ++ prelude w target session page
                  ++ [Evaluate page; PageClose page; PageClose page] ∧
    activeSessions st' !! k = Some (store_links gofileLinks session) ∧
    (get_solved_links (Req.mk (JsString target) JsUndefined) st').1
    = links_response (store_links gofileLinks session).
Proof.
  intros Hk Hs Hp Hg Hl He Hc Hc'.
  pose proof (getFileCryptSession_stored _ _ _ _ _ Hs) as Hst.
  exists (mkState (alter (store_links gofileLinks) k (activeSessions st1))
            (trace st1 ++ prelude w target session page
               ++ [Evaluate page; PageClose page; PageClose page])).
  split_and!.
  - unfold solve_filecrypt, respond, solve_filecrypt_body, extract. run_M.
    rewrite Hk, Hs, Hp, Hg. simpl.
    destruct (waitForCaptcha w); simpl; rewrite Hl, He, Hc, Hc'; simpl;
      unfold timeout_response, prelude; simpl; rewrite <- ?app_assoc; simpl; done.
  - done.
  - simpl. by rewrite lookup_alter_eq, Hst.
  - rewrite get_solved_links_eq, Hk. simpl. by rewrite lookup_alter_eq, Hst.
Qed.

Lemma solve_filecrypt_close_failure_witness :
  let w := mkWorld 1000 (λ _, Resolved tt) (Resolved 8%nat) "uuid-2" 1000
             (Resolved 1%nat) (Resolved tt) (Resolved tt) (Resolved tt)
             (Resolved [link_a']) (Rejected "page crashed") (Resolved tt) in
  ∃ st',
    solve_filecrypt w (Req.mk (JsString container_ABC123) JsUndefined) one_session
    = (timeout_response old_session, st') ∧
    trace st' = trace one_session ++ prelude w container_ABC123 old_session 1
                  ++ [Evaluate 1; PageClose 1; PageClose 1] ∧
    activeSessions st' !! "ABC123" = Some (store_links [link_a'] old_session) ∧
    (get_solved_links (Req.mk (JsString container_ABC123) JsUndefined) st').1
    = links_response (store_links [link_a'] old_session).
Proof.
  intros w.
  apply (solve_filecrypt_close_failure w container_ABC123 "ABC123" "page crashed"
           JsUndefined one_session one_session old_session 1 [link_a']); reflexivity.
Defined.

(** ** One identifier at a time *)

(** X13.  A request to [/solve-filecrypt] leaves alone every session whose
    identifier is not the one of its URL (all of them when the URL is not a
    string or carries no identifier). *)
Theorem solve_filecrypt_other_sessions (w : World) (req : Req.t) (st : State)
    (k' : string) :
  (∀ target, Req.filecryptUrl req = JsString target → filecryptIdMatch target ≠ Some k') →
  activeSessions (solve_filecrypt w req st).2 !! k' = activeSessions st !! k'.
Proof.
  intros Hother.
  destruct (solve_filecrypt_store w req st)
    as [->|(target & k & Hreq & Hk & [->|(L & _ & ->)])]; [done|..].
  - apply getFileCryptSession_other. intros ->. by eapply Hother.
  - assert (k' ≠ k) as Hne by (intros ->; by eapply Hother).
    rewrite lookup_alter_ne by done. by apply getFileCryptSession_other.
Qed.

Lemma solve_filecrypt_other_sessions_witness :
  activeSessions
    (solve_filecrypt (calm 3600000)
       (Req.mk (JsString "https://filecrypt.co/Container/XYZ") JsUndefined)
       one_session).2 !! "ABC123"
  = activeSessions one_session !! "ABC123".
Proof.
  apply (solve_filecrypt_other_sessions (calm 3600000)
           (Req.mk (JsString "https://filecrypt.co/Container/XYZ") JsUndefined)
           one_session "ABC123").
  intros target [= <-]. by vm_compute.
Defined.

(** X14.  A request for an identifier whose session is live never replaces
    or renews that session, whatever the browser does: afterwards the store
    holds under the identifier a session with the same id, browser and
    creation time, the urls it had are still there in the same order, and
    the request launched no browser and closed none. *)
Theorem solve_filecrypt_keeps_live_session (w : World) (target k : string) (sid : JsValue)
    (st : State) (s : Session) :
  filecryptIdMatch target = Some k →
  activeSessions st !! k = Some s →
  now_on_lookup w - createdAt s < expiredThreshold →
  ∃ s' new,
    activeSessions (solve_filecrypt w (Req.mk (JsString target) sid) st).2 !! k = Some s' ∧
    id s' = id s ∧ browser s' = browser s ∧ createdAt s' = createdAt s ∧
    filecryptId s' = filecryptId s ∧
    JsMap.keys (solvedLinks s) `prefix_of` JsMap.keys (solvedLinks s') ∧
    trace (solve_filecrypt w (Req.mk (JsString target) sid) st).2 = trace st ++ new ∧
    Forall (λ e, e ≠ Launch ∧ ∀ b, e ≠ BrowserClose b) new.
Proof.
  intros Hk Hs Hlive.
  pose proof (getFileCryptSession_live w k st s Hs Hlive) as Hget.
  unfold solve_filecrypt, respond, solve_filecrypt_body, extract. run_M.
  rewrite Hk, Hget.
  destruct (newPage w) as [page|?]; simpl;
    [destruct (goto w) as [[]|?]; simpl;
     [destruct (waitForCaptcha w) as [[]|?]; simpl;
      (destruct (waitForLinks w) as [[]|?]; simpl;
       [destruct (evaluate w) as [L|?]; simpl;
        [destruct (page_close w) as [[]|?]; simpl|]|];
       try (destruct (page_close_in_catch w) as [[]|?]; simpl))|]|];
    rewrite ?lookup_alter_eq, ?Hs; simpl;
    eexists _, _;
    (split_and!;
     [reflexivity|reflexivity|reflexivity|reflexivity|reflexivity|
      first [done | apply merge_links_keys_prefix]|
      rewrite <- ?app_assoc; simpl; reflexivity|
      repeat constructor; done]).
Qed.

Lemma solve_filecrypt_keeps_live_session_witness :
  ∃ s' new,
    activeSessions (solve_filecrypt (calm 1000)
                      (Req.mk (JsString container_ABC123) JsUndefined)
                      one_session).2 !! "ABC123" = Some s' ∧
    id s' = id old_session ∧ browser s' = browser old_session ∧
    createdAt s' = createdAt old_session ∧ filecryptId s' = filecryptId old_session ∧
    JsMap.keys (solvedLinks old_session) `prefix_of` JsMap.keys (solvedLinks s') ∧
    trace (solve_filecrypt (calm 1000) (Req.mk (JsString container_ABC123) JsUndefined)
             one_session).2 = trace one_session ++ new ∧
    Forall (λ e, e ≠ Launch ∧ ∀ b, e ≠ BrowserClose b) new.
Proof.
  apply (solve_filecrypt_keeps_live_session (calm 1000) container_ABC123 "ABC123"
           JsUndefined one_session old_session); [reflexivity..|by vm_compute].
Defined.

(** X15.  What a successful run returns can be read back: the accessor,
    asked with the same URL and the session id of the response, answers
    200 with the links of the session, and for every harvested record that
    list holds the last harvested record with the same [url]. *)
Theorem solve_then_get_solved_links (w : World) (target : string) (sid : JsValue)
    (st st' : State) (res : Res.t) :
  solve_filecrypt w (Req.mk (JsString target) sid) st = (res, st') →
  Res.success res = true →
  ∃ gofileLinks i s',
    Res.links res = Some gofileLinks ∧ Res.sessionId res = Some i ∧
    get_solved_links (Req.mk (JsString target) (JsString i)) st'
    = (links_response s', st') ∧
    id s' = i ∧
    ∀ l, l ∈ gofileLinks →
      ∃ l', l' ∈ JsMap.values (solvedLinks s') ∧ url l' = url l ∧
            last (filter (λ x, url x = url l) gofileLinks) = Some l'.
Proof.
  intros Hrun Hok. destruct (filecryptIdMatch target) as [k|] eqn:Hk.
  2:{ rewrite solve_filecrypt_no_match in Hrun by done. by simplify_eq. }
  destruct (getFileCryptSession w k st) as [[session|msg] st1] eqn:Hs.
  2:{ rewrite (solve_filecrypt_throw _ _ _ _ _ _ _ Hk Hs) in Hrun. by simplify_eq. }
  destruct (solve_filecrypt_cases w target sid st k session st1 Hk Hs)
    as (res0 & st0 & new & Hrun0 & _ & _ & Hcases).
  rewrite Hrun in Hrun0. simplify_eq.
  destruct Hcases as [(L & -> & HL & Hstore)|[[->|[msg ->]] _]]; [|done..].
  pose proof (getFileCryptSession_stored _ _ _ _ _ Hs) as Hst.
  exists L, (id session), (store_links L session). split_and!; [done..| | |].
  - rewrite get_solved_links_eq, Hk, Hstore, lookup_alter_eq, Hst. simpl.
    rewrite (bool_decide_true (id session = id session)) by done.
    simpl. by rewrite andb_false_r.
  - done.
  - intros l Hl.
    assert (∃ l', last (filter (λ x, url x = url l) L) = Some l') as [l' Hl'].
    { destruct (last (filter (λ x, url x = url l) L)) as [l'|] eqn:E; [eauto|].
      apply last_None in E. assert (l ∈ filter (λ x, url x = url l) L) as Hin.
      { by apply list_elem_of_filter. }
      rewrite E in Hin. by apply elem_of_nil in Hin. }
    exists l'. split_and!; [|  |done].
    + apply (JsMap_get_values (url l)). simpl. by rewrite merge_links_get, Hl'.
    + apply last_Some_elem_of, list_elem_of_filter in Hl' as [? _]. done.
Qed.

Lemma solve_then_get_solved_links_witness :
  ∃ gofileLinks i s',
    Res.links (solve_filecrypt (calm 1000) (Req.mk (JsString container_ABC123) JsUndefined)
                 one_session).1 = Some gofileLinks ∧
    Res.sessionId (solve_filecrypt (calm 1000)
                     (Req.mk (JsString container_ABC123) JsUndefined) one_session).1
    = Some i ∧
    get_solved_links (Req.mk (JsString container_ABC123) (JsString i))
      (solve_filecrypt (calm 1000) (Req.mk (JsString container_ABC123) JsUndefined)
         one_session).2
    = (links_response s',
       (solve_filecrypt (calm 1000) (Req.mk (JsString container_ABC123) JsUndefined)
          one_session).2) ∧
    id s' = i ∧
    ∀ l, l ∈ gofileLinks →
      ∃ l', l' ∈ JsMap.values (solvedLinks s') ∧ url l' = url l ∧
            last (filter (λ x, url x = url l) gofileLinks) = Some l'.
Proof.
  apply (solve_then_get_solved_links (calm 1000) container_ABC123 JsUndefined one_session);
    reflexivity.
Defined.

(** ** The shape of the answers *)

(** X16.  Whatever the request and whatever the browser does,
    [/solve-filecrypt] answers with status 200, 400 or 500; [success] is
    true exactly when the answer carries links, and then the status is
    200; a session id is carried exactly by the answers of status 200, so
    the timeout failure is a 200 answer with [success] false; every answer
    without success carries an error text. *)
Theorem solve_filecrypt_answers (w : World) (req : Req.t) (st : State) :
  let res := (solve_filecrypt w req st).1 in
  (Res.status res = 200 ∨ Res.status res = 400 ∨ Res.status res = 500) ∧
  (Res.success res = true ↔ is_Some (Res.links res)) ∧
  (is_Some (Res.sessionId res) ↔ Res.status res = 200) ∧
  (Res.success res = false ↔ is_Some (Res.error res)).
Proof.
  assert (∀ code msg, code = 400 ∨ code = 500 →
            let res := Res.failure code msg in
            (Res.status res = 200 ∨ Res.status res = 400 ∨ Res.status res = 500) ∧
            (Res.success res = true ↔ is_Some (Res.links res)) ∧
            (is_Some (Res.sessionId res) ↔ Res.status res = 200) ∧
            (Res.success res = false ↔ is_Some (Res.error res))) as Hfail.
  { intros code msg Hcode. simpl. split_and!; [tauto| | |].
    - split; [done|]. by intros [? ?].
    - split; [by intros [? ?]|]. destruct Hcode; subst; done.
    - split; eauto. }
  destruct req as [v sid]. destruct (JsValue_string_or_not v) as [[target ->]|Hv].
  - destruct (filecryptIdMatch target) as [k|] eqn:Hk.
    + destruct (getFileCryptSession w k st) as [[session|msg] st1] eqn:Hs.
      * destruct (solve_filecrypt_cases w target sid st k session st1 Hk Hs)
          as (res & st' & new & -> & _ & _ & Hcases).
        destruct Hcases as [(L & -> & _)|[[->|[msg ->]] _]].
        -- simpl. split_and!; [tauto|..];
             (split; first [done | by eauto | by intros [? ?]]).
        -- simpl. split_and!; [tauto|..];
             (split; first [done | by eauto | by intros [? ?]]).
        -- apply Hfail. tauto.
      * rewrite (solve_filecrypt_throw _ _ _ _ _ _ _ Hk Hs). apply Hfail. tauto.
    + rewrite solve_filecrypt_no_match by done. apply Hfail. tauto.
  - destruct (solve_filecrypt_not_string w v sid st Hv) as [msg ->]. apply Hfail. tauto.
Qed.

(** X17.  [/get-solved-links] answers with status 200, 400, 403, 404 or
    500; the status is 200 exactly when [success] is true, and exactly then
    the answer carries links and a session id. *)
Theorem get_solved_links_answers (req : Req.t) (st : State) :
  let res := (get_solved_links req st).1 in
  (Res.status res = 200 ∨ Res.status res = 400 ∨ Res.status res = 403 ∨
   Res.status res = 404 ∨ Res.status res = 500) ∧
  (Res.status res = 200 ↔ Res.success res = true) ∧
  (Res.success res = true ↔ is_Some (Res.links res)) ∧
  (Res.success res = true ↔ is_Some (Res.sessionId res)).
Proof.
  assert (∀ code msg, code = 400 ∨ code = 403 ∨ code = 404 ∨ code = 500 →
            let res := Res.failure code msg in
            (Res.status res = 200 ∨ Res.status res = 400 ∨ Res.status res = 403 ∨
             Res.status res = 404 ∨ Res.status res = 500) ∧
            (Res.status res = 200 ↔ Res.success res = true) ∧
            (Res.success res = true ↔ is_Some (Res.links res)) ∧
            (Res.success res = true ↔ is_Some (Res.sessionId res))) as Hfail.
  { intros code msg Hcode. simpl. split_and!; [tauto| | |].
    - split; [|done]. destruct Hcode as [?|[?|[?|?]]]; subst; done.
    - split; [done|]. by intros [? ?].
    - split; [done|]. by intros [? ?]. }
  destruct req as [v sid]. destruct (JsValue_string_or_not v) as [[target ->]|Hv].
  - rewrite get_solved_links_eq. cbn [fst].
    destruct (filecryptIdMatch target) as [k|]; [|apply Hfail; tauto].
    destruct (activeSessions st !! k) as [s|]; [|apply Hfail; tauto].
    destruct (truthy sid && string_strict_ne (id s) sid); [apply Hfail; tauto|].
    simpl. split_and!; [tauto|..]; (split; first [done | by eauto]).
  - destruct (get_solved_links_not_string v sid st Hv) as [msg ->]. apply Hfail. tauto.
Qed.

(** ** Launches *)

(** X18.  A request to [/solve-filecrypt] whose URL carries an identifier
    launches a browser exactly when the store has no live session for that
    identifier, and then exactly once. *)
Theorem solve_filecrypt_launches (w : World) (target k : string) (sid : JsValue)
    (st : State) :
  filecryptIdMatch target = Some k →
  ∃ new,
    trace (solve_filecrypt w (Req.mk (JsString target) sid) st).2 = trace st ++ new ∧
    count_occ Event_eq_dec new Launch
    = if is_live (now_on_lookup w) st k then 0%nat else 1%nat.
Proof.
  intros Hk.
  assert (∃ new0,
            trace (getFileCryptSession w k st).2 = trace st ++ new0 ∧
            count_occ Event_eq_dec new0 Launch
            = if is_live (now_on_lookup w) st k then 0%nat else 1%nat)
    as (new0 & Htr0 & Hcount0).
  { rewrite getFileCryptSession_eq. unfold is_live.
    destruct (activeSessions st !! k) as [old|] eqn:E.
    - case_bool_decide.
      + exists []. by rewrite app_nil_r.
      + rewrite createSession_eq.
        exists (BrowserClose (browser old)
                  :: close_log (browser_close w (browser old)) ++ [Launch]).
        split; [destruct (launch w); simpl; by rewrite <- app_assoc|].
        rewrite count_occ_cons_neq, count_occ_app by done.
        destruct (browser_close w (browser old)); unfold close_log;
          rewrite ?count_occ_cons_eq, ?count_occ_cons_neq, ?count_occ_nil by done; done.
    - rewrite createSession_eq. exists [Launch]. split; [by destruct (launch w)|].
      by rewrite count_occ_cons_eq. }
  assert (∀ new, Forall (λ e, e ≠ Launch) new → count_occ Event_eq_dec new Launch = 0%nat)
    as Hnone.
  { intros new Hnew. apply count_occ_not_In. intros Hin%list_elem_of_In.
    rewrite Forall_forall in Hnew. by eapply Hnew. }
  destruct (getFileCryptSession w k st) as [[session|msg] st1] eqn:Hs; simpl in Htr0.
  - destruct (solve_filecrypt_cases w target sid st k session st1 Hk Hs)
      as (res & st' & new & -> & Htr & Hnew & _). simpl.
    exists (new0 ++ new). split; [by rewrite Htr, Htr0, app_assoc|].
    by rewrite count_occ_app, Hcount0, (Hnone new Hnew), Nat.add_0_r.
  - rewrite (solve_filecrypt_throw _ _ _ _ _ _ _ Hk Hs). simpl.
    eexists (new0 ++ [_]). split; [by rewrite Htr0, app_assoc|].
    rewrite count_occ_app, Hcount0, count_occ_cons_neq, count_occ_nil by done. lia.
Qed.

Lemma solve_filecrypt_launches_witness :
  ∃ new,
    trace (solve_filecrypt (calm 3600000) (Req.mk (JsString container_ABC123) JsUndefined)
             one_session).2 = trace one_session ++ new ∧
    count_occ Event_eq_dec new Launch = 1%nat.
Proof.
  apply (solve_filecrypt_launches (calm 3600000) container_ABC123 "ABC123" JsUndefined
           one_session).
  reflexivity.
Defined.
